(** * bidi_scan: a shallow embedding of [scripts/security/bidi_scan.mjs]

    The script lists the git-tracked files, scans each one for a fixed
    catalogue of bidirectional and zero-width control characters, writes a
    JSON report and exits with 0 or 1.

    JavaScript strings are sequences of UTF-16 code units; they are modelled
    as [list N].  Files are sequences of bytes; [readFileSync] decodes them
    as Node does.  The one mutable object shared between calls, the global
    regular expression [unsafePattern], is threaded explicitly. *)

From Stdlib Require Import Strings.String Strings.Ascii.
From Stdlib Require Strings.Byte.
From Stdlib Require Import List NArith Arith Bool Lia Sorted Permutation.
Import ListNotations.

Set Implicit Arguments.
Set Warnings "-register-all".

(* ===================================================================== *)
(** ** JavaScript strings *)
(* ===================================================================== *)

Module JS.

(** A string value: its UTF-16 code units, each below 65536. *)
Definition jsstring := list N.

(** An ASCII literal of the source as a string value. *)
Definition lit (s : String.string) : jsstring :=
  map Ascii.N_of_ascii (String.list_ascii_of_string s).

Arguments lit s%_string.

Fixpoint eqb (a b : jsstring) : bool :=
  match a, b with
  | [], [] => true
  | x :: a', y :: b' => (x =? y)%N && eqb a' b'
  | _, _ => false
  end.

(** [s.startsWith(p)] *)
Fixpoint startsWith (p s : jsstring) : bool :=
  match p, s with
  | [], _ => true
  | x :: p', y :: s' => (x =? y)%N && startsWith p' s'
  | _ :: _, [] => false
  end.

(** [s.substring(0, n)] for [0 <= n]: the code units before index [n]. *)
Definition substring0 (s : jsstring) (n : nat) : jsstring := firstn n s.

(** [s.split(sep)] for a separator of one code unit: always at least one
    segment, the empty one for the empty string. *)
Fixpoint split (sep : N) (s : jsstring) : list jsstring :=
  match s with
  | [] => [[]]
  | c :: r =>
      if (c =? sep)%N then [] :: split sep r
      else match split sep r with
           | seg :: segs => (c :: seg) :: segs
           | [] => [[c]]
           end
  end.

(** WhiteSpace and LineTerminator code units of ECMAScript, the ones
    [String.prototype.trim] removes: TAB, VT, FF, SP, NBSP, ZWNBSP, the
    Unicode space separators, and LF, CR, LS, PS. *)
Definition is_whitespace (c : N) : bool :=
  ((c =? 0x09) || (c =? 0x0B) || (c =? 0x0C) || (c =? 0x20) || (c =? 0xA0)
   || (c =? 0xFEFF) || (c =? 0x1680) || ((0x2000 <=? c) && (c <=? 0x200A))
   || (c =? 0x202F) || (c =? 0x205F) || (c =? 0x3000)
   || (c =? 0x0A) || (c =? 0x0D) || (c =? 0x2028) || (c =? 0x2029))%N.

Fixpoint trimStart (s : jsstring) : jsstring :=
  match s with
  | [] => []
  | c :: r => if is_whitespace c then trimStart r else s
  end.

Definition trimEnd (s : jsstring) : jsstring := rev (trimStart (rev s)).

(** [s.trim()] *)
Definition trim (s : jsstring) : jsstring := trimEnd (trimStart s).

(** [s.charCodeAt(i)]; [None] stands for NaN (index out of range). *)
Definition charCodeAt (s : jsstring) (i : nat) : option N := nth_error s i.

(** One digit of a numeral in a base up to 16, lower case as
    [Number.prototype.toString] prints it. *)
Definition digit (d : N) : N :=
  if (d <? 10)%N then (48 + d)%N else (97 + (d - 10))%N.

Fixpoint digits (fuel : nat) (base n : N) : jsstring :=
  match fuel with
  | 0 => [digit (n mod base)]
  | S fuel' =>
      if (n <? base)%N then [digit n]
      else digits fuel' base (n / base) ++ [digit (n mod base)]
  end.

(** [n.toString(base)] for a non-negative integer; a numeral of [n] never
    has more digits than [n] has bits. *)
Definition Number_toString (base : N) (n : option N) : jsstring :=
  match n with
  | None => lit "NaN"
  | Some n => digits (N.to_nat (N.size n)) base n
  end.

(** [s.toUpperCase()] on the ASCII letters; the script applies it to
    hexadecimal numerals only. *)
Definition toUpperCase (s : jsstring) : jsstring :=
  map (fun c => if ((97 <=? c) && (c <=? 122))%N then (c - 32)%N else c) s.

(** [s.padStart(n, "0")] *)
Definition padStart0 (n : nat) (s : jsstring) : jsstring :=
  repeat 48%N (n - length s) ++ s.

(** [l.join(sep)] for an array of strings. *)
Fixpoint join (sep : jsstring) (l : list jsstring) : jsstring :=
  match l with
  | [] => []
  | [x] => x
  | x :: l' => x ++ sep ++ join sep l'
  end.

(** Surrogate code units. *)
Definition is_high_surrogate (c : N) : bool := ((0xD800 <=? c) && (c <=? 0xDBFF))%N.
Definition is_low_surrogate (c : N) : bool := ((0xDC00 <=? c) && (c <=? 0xDFFF))%N.

(** The UTF-16 code units of one code point. *)
Definition utf16 (cp : N) : jsstring :=
  if (cp <? 0x10000)%N then [cp]
  else [(0xD800 + (cp - 0x10000) / 0x400)%N; (0xDC00 + (cp - 0x10000) mod 0x400)%N].

(** The code points of a string, as string iteration yields them: a high
    surrogate followed by a low one is one code point, any other code unit
    stands alone. *)
Fixpoint codePoints (s : jsstring) : list N :=
  match s with
  | [] => []
  | c :: r =>
      if is_high_surrogate c then
        match r with
        | d :: r' =>
            if is_low_surrogate d
            then (0x10000 + (c - 0xD800) * 0x400 + (d - 0xDC00))%N :: codePoints r'
            else c :: codePoints r
        | [] => [c]
        end
      else c :: codePoints r
  end.

End JS.

Import JS.

(* ===================================================================== *)
(** ** Objects used as maps *)
(* ===================================================================== *)

Module Obj.

(** The own enumerable properties of an ordinary object created by [{}],
    in creation order. *)
Definition t (V : Type) := list (jsstring * V).

Definition empty {V : Type} : t V := [].

Fixpoint get {V : Type} (k : jsstring) (o : t V) : option V :=
  match o with
  | [] => None
  | (k', v) :: o' => if JS.eqb k k' then Some v else get k o'
  end.

Fixpoint put {V : Type} (k : jsstring) (v : V) (o : t V) : t V :=
  match o with
  | [] => [(k, v)]
  | (k', v') :: o' =>
      if JS.eqb k k' then (k, v) :: o' else (k', v') :: put k v o'
  end.

Definition proto_key : jsstring := lit "__proto__".

(** [o[k] = v] where [v] is an object (here: an array).  The key
    ["__proto__"] names the accessor inherited from [Object.prototype]:
    assigning an object to it replaces the prototype of [o] and creates no
    own property.  Every other key creates or overwrites an own property. *)
Definition assign {V : Type} (k : jsstring) (v : V) (o : t V) : t V :=
  if JS.eqb k proto_key then o else put k v o.

(** The value of a decimal numeral without sign. *)
Fixpoint decimal_value (acc : N) (s : jsstring) : option N :=
  match s with
  | [] => Some acc
  | c :: r =>
      if ((48 <=? c) && (c <=? 57))%N
      then decimal_value (10 * acc + (c - 48))%N r
      else None
  end.

(** A property key is an array index when it is the canonical numeral of an
    integer from 0 to 2^32 - 2. *)
Definition array_index (k : jsstring) : option N :=
  match k with
  | [] => None
  | c :: r =>
      if (c =? 48)%N && negb (length r =? 0) then None
      else if 10 <? length k then None
      else match decimal_value 0 k with
           | Some n => if (n <=? 4294967294)%N then Some n else None
           | None => None
           end
  end.

Fixpoint insert_index {V : Type} (n : N) (p : jsstring * V)
  (l : list (N * (jsstring * V))) : list (N * (jsstring * V)) :=
  match l with
  | [] => [(n, p)]
  | (m, q) :: l' =>
      if (n <=? m)%N then (n, p) :: l else (m, q) :: insert_index n p l'
  end.

Fixpoint index_props {V : Type} (o : t V) : list (N * (jsstring * V)) :=
  match o with
  | [] => []
  | (k, v) :: o' =>
      match array_index k with
      | Some n => insert_index n (k, v) (index_props o')
      | None => index_props o'
      end
  end.

Definition is_index_key {V : Type} (p : jsstring * V) : bool :=
  match array_index (fst p) with Some _ => true | None => false end.

(** [Object.entries(o)]: array-index keys first, in ascending numeric
    order, then the other keys in creation order. *)
Definition entries {V : Type} (o : t V) : list (jsstring * V) :=
  map snd (index_props o) ++ filter (fun p => negb (is_index_key p)) o.

(** [Object.keys(o)] *)
Definition keys {V : Type} (o : t V) : list jsstring := map fst (entries o).

End Obj.

(* ===================================================================== *)
(** ** UTF-8, as Node's [Buffer] converts it *)
(* ===================================================================== *)

Module Utf8.

Definition in_range (lo hi : N) (b : Byte.byte) : bool :=
  ((lo <=? Byte.to_N b) && (Byte.to_N b <=? hi))%N.

(** The payload of a continuation byte. *)
Definition tail_bits (b : Byte.byte) : N := (Byte.to_N b - 0x80)%N.

(** Bounds of the second byte after the lead byte [x0] of a three-byte or
    four-byte sequence (no overlong forms, no surrogates, nothing above
    U+10FFFF). *)
Definition second_lo (x0 : N) : N :=
  if (x0 =? 0xE0)%N then 0xA0%N else if (x0 =? 0xF0)%N then 0x90%N else 0x80%N.
Definition second_hi (x0 : N) : N :=
  if (x0 =? 0xED)%N then 0x9F%N else if (x0 =? 0xF4)%N then 0x8F%N else 0xBF%N.

(** [buffer.toString('utf-8')]: the code points of a byte sequence.
    Decoding never fails: every maximal ill-formed subsequence becomes one
    U+FFFD and decoding resumes at the byte that broke the sequence. *)
Fixpoint decode (bs : list Byte.byte) : list N :=
  match bs with
  | [] => []
  | b0 :: r0 =>
      let x0 := Byte.to_N b0 in
      if (x0 <=? 0x7F)%N then x0 :: decode r0
      else if in_range 0xC2 0xDF b0 then
        match r0 with
        | [] => [0xFFFD%N]
        | b1 :: r1 =>
            if in_range 0x80 0xBF b1
            then ((x0 - 0xC0) * 0x40 + tail_bits b1)%N :: decode r1
            else 0xFFFD%N :: decode r0
        end
      else if in_range 0xE0 0xEF b0 then
        match r0 with
        | [] => [0xFFFD%N]
        | b1 :: r1 =>
            if in_range (second_lo x0) (second_hi x0) b1 then
              match r1 with
              | [] => [0xFFFD%N]
              | b2 :: r2 =>
                  if in_range 0x80 0xBF b2
                  then ((x0 - 0xE0) * 0x1000 + tail_bits b1 * 0x40
                        + tail_bits b2)%N :: decode r2
                  else 0xFFFD%N :: decode r1
              end
            else 0xFFFD%N :: decode r0
        end
      else if in_range 0xF0 0xF4 b0 then
        match r0 with
        | [] => [0xFFFD%N]
        | b1 :: r1 =>
            if in_range (second_lo x0) (second_hi x0) b1 then
              match r1 with
              | [] => [0xFFFD%N]
              | b2 :: r2 =>
                  if in_range 0x80 0xBF b2 then
                    match r2 with
                    | [] => [0xFFFD%N]
                    | b3 :: r3 =>
                        if in_range 0x80 0xBF b3
                        then ((x0 - 0xF0) * 0x40000 + tail_bits b1 * 0x1000
                              + tail_bits b2 * 0x40 + tail_bits b3)%N :: decode r3
                        else 0xFFFD%N :: decode r2
                    end
                  else 0xFFFD%N :: decode r1
              end
            else 0xFFFD%N :: decode r0
        end
      else 0xFFFD%N :: decode r0
  end.

(** Whether a byte sequence is well-formed UTF-8, that is, decodes without
    any substitution. *)
Fixpoint wellformed (bs : list Byte.byte) : bool :=
  match bs with
  | [] => true
  | b0 :: r0 =>
      let x0 := Byte.to_N b0 in
      if (x0 <=? 0x7F)%N then wellformed r0
      else if in_range 0xC2 0xDF b0 then
        match r0 with
        | b1 :: r1 => in_range 0x80 0xBF b1 && wellformed r1
        | [] => false
        end
      else if in_range 0xE0 0xEF b0 then
        match r0 with
        | b1 :: b2 :: r2 =>
            in_range (second_lo x0) (second_hi x0) b1
            && in_range 0x80 0xBF b2 && wellformed r2
        | _ => false
        end
      else if in_range 0xF0 0xF4 b0 then
        match r0 with
        | b1 :: b2 :: b3 :: r3 =>
            in_range (second_lo x0) (second_hi x0) b1
            && in_range 0x80 0xBF b2 && in_range 0x80 0xBF b3 && wellformed r3
        | _ => false
        end
      else false
  end.

Definition byte_of_N (n : N) : Byte.byte :=
  match Byte.of_N n with
  | Some b => b
  | None => Byte.x00
  end.

(** The bytes of one code point; a lone surrogate is written as U+FFFD. *)
Definition encode_code_point (cp : N) : list Byte.byte :=
  let cp := if ((0xD800 <=? cp) && (cp <=? 0xDFFF))%N then 0xFFFD%N else cp in
  if (cp <? 0x80)%N then [byte_of_N cp]
  else if (cp <? 0x800)%N then
    [byte_of_N (0xC0 + cp / 0x40); byte_of_N (0x80 + cp mod 0x40)]
  else if (cp <? 0x10000)%N then
    [byte_of_N (0xE0 + cp / 0x1000); byte_of_N (0x80 + (cp / 0x40) mod 0x40);
     byte_of_N (0x80 + cp mod 0x40)]
  else
    [byte_of_N (0xF0 + cp / 0x40000); byte_of_N (0x80 + (cp / 0x1000) mod 0x40);
     byte_of_N (0x80 + (cp / 0x40) mod 0x40); byte_of_N (0x80 + cp mod 0x40)].

(** [Buffer.from(s, 'utf-8')] *)
Definition encode (s : jsstring) : list Byte.byte :=
  flat_map encode_code_point (codePoints s).

End Utf8.

(* ===================================================================== *)
(** ** [JSON.stringify(value, null, 2)] *)
(* ===================================================================== *)

Module JSON.

Inductive value :=
| Num (n : nat)
| Str (s : jsstring)
| Arr (items : list value)
| Object (props : list (jsstring * value)).

(** [\uXXXX] with lower-case digits. *)
Definition unicode_escape (c : N) : jsstring :=
  lit "\u" ++ padStart0 4 (Number_toString 16 (Some c)).

(** One code unit that is not a surrogate, inside a quoted string. *)
Definition escape_unit (c : N) : jsstring :=
  if (c =? 0x08)%N then lit "\b"
  else if (c =? 0x09)%N then lit "\t"
  else if (c =? 0x0A)%N then lit "\n"
  else if (c =? 0x0C)%N then lit "\f"
  else if (c =? 0x0D)%N then lit "\r"
  else if (c =? 0x22)%N then [0x5C%N; 0x22%N]
  else if (c =? 0x5C)%N then [0x5C%N; 0x5C%N]
  else if (c <? 0x20)%N then unicode_escape c
  else [c].

(** The characters between the quotes: surrogate pairs are kept, lone
    surrogates are escaped. *)
Fixpoint quote_body (s : jsstring) : jsstring :=
  match s with
  | [] => []
  | c :: r =>
      if is_high_surrogate c then
        match r with
        | d :: r' =>
            if is_low_surrogate d then c :: d :: quote_body r'
            else unicode_escape c ++ quote_body r
        | [] => unicode_escape c
        end
      else if is_low_surrogate c then unicode_escape c ++ quote_body r
      else escape_unit c ++ quote_body r
  end.

Definition quote (s : jsstring) : jsstring :=
  [0x22%N] ++ quote_body s ++ [0x22%N].

Definition gap : jsstring := lit "  ".
Definition newline : jsstring := [0x0A%N].

(** A non-empty array or object: the members one per line, one [gap]
    deeper than [indent]. *)
Definition block (opening closing indent : jsstring) (members : list jsstring) : jsstring :=
  let stepped := indent ++ gap in
  opening ++ newline ++ stepped
    ++ join (lit "," ++ newline ++ stepped) members
    ++ newline ++ indent ++ closing.

Fixpoint serialize (indent : jsstring) (v : value) : jsstring :=
  match v with
  | Num n => Number_toString 10 (Some (N.of_nat n))
  | Str s => quote s
  | Arr [] => lit "[]"
  | Arr items =>
      block (lit "[") (lit "]") indent
        (map (serialize (indent ++ gap)) items)
  | Object [] => lit "{}"
  | Object props =>
      block (lit "{") (lit "}") indent
        (map (fun p => quote (fst p) ++ lit ": " ++ serialize (indent ++ gap) (snd p))
             props)
  end.

Definition stringify (v : value) : jsstring := serialize [] v.

End JSON.

(* ===================================================================== *)
(** ** The catalogue and the detection pattern *)
(* ===================================================================== *)

(** [const UNSAFE_CHARS = { ... }] (lines 15-34): one-character keys. *)
Definition UNSAFE_CHARS : Obj.t jsstring :=
  [ ([0x202A%N], lit "LRE (Left-to-Right Embedding)");
    ([0x202B%N], lit "RLE (Right-to-Left Embedding)");
    ([0x202C%N], lit "PDF (Pop Directional Formatting)");
    ([0x202D%N], lit "LRO (Left-to-Right Override)");
    ([0x202E%N], lit "RLO (Right-to-Left Override)");
    ([0x2066%N], lit "LRI (Left-to-Right Isolate)");
    ([0x2067%N], lit "RLI (Right-to-Left Isolate)");
    ([0x2068%N], lit "FSI (First Strong Isolate)");
    ([0x2069%N], lit "PDI (Pop Directional Isolate)");
    ([0x200B%N], lit "ZWSP (Zero Width Space)");
    ([0x200C%N], lit "ZWNJ (Zero Width Non-Joiner)");
    ([0x200D%N], lit "ZWJ (Zero Width Joiner)");
    ([0x200E%N], lit "LRM (Left-to-Right Mark)");
    ([0x200F%N], lit "RLM (Right-to-Left Mark)");
    ([0xFEFF%N], lit "BOM/ZWNBSP (Zero Width No-Break Space)") ].

(** A regular expression with the [g] flag whose source is an alternation
    of literal strings: the alternatives and the mutable [lastIndex]. *)
Record RegExp := mkRegExp {
  alternatives : list jsstring;
  lastIndex : nat
}.

Definition set_lastIndex (re : RegExp) (i : nat) : RegExp :=
  mkRegExp (alternatives re) i.

(** [new RegExp(Object.keys(UNSAFE_CHARS).join('|'), 'g')] (lines 37-40).
    No key contains a pattern metacharacter, so each key is one literal
    alternative. *)
Definition unsafePattern : RegExp :=
  mkRegExp (Obj.keys UNSAFE_CHARS) 0.

(** The result array of a successful [exec]: [match[0]] and [match.index]. *)
Record MatchResult := mkMatch {
  matched : jsstring;
  index : nat
}.

(** The first alternative, in source order, that matches at the head of
    [s]. *)
Definition match_here (alts : list jsstring) (s : jsstring) : option jsstring :=
  find (fun a => startsWith a s) alts.

(** Try position [i] (where the rest of the input is [s]), then the
    following ones up to and including the end of the input. *)
Fixpoint search (alts : list jsstring) (s : jsstring) (i : nat) : option MatchResult :=
  match match_here alts s with
  | Some a => Some (mkMatch a i)
  | None =>
      match s with
      | [] => None
      | _ :: r => search alts r (S i)
      end
  end.

(** [re.exec(s)] for a global pattern: the search starts at [lastIndex];
    a match moves [lastIndex] past it, a failure resets it to 0. *)
Definition exec (re : RegExp) (s : jsstring) : option MatchResult * RegExp :=
  if length s <? lastIndex re then (None, set_lastIndex re 0)
  else
    match search (alternatives re) (skipn (lastIndex re) s) (lastIndex re) with
    | Some m => (Some m, set_lastIndex re (index m + length (matched m)))
    | None => (None, set_lastIndex re 0)
    end.

(* ===================================================================== *)
(** ** Scanning one file *)
(* ===================================================================== *)

(** The object pushed at lines 70-76.  [name] is [None] when the lookup
    [UNSAFE_CHARS[char]] yields [undefined]. *)
Record Finding := mkFinding {
  char : jsstring;
  codepoint : jsstring;
  name : option jsstring;
  position : nat;
  line : nat
}.

(** The body of the [while] loop, lines 62-76. *)
Definition finding_of (content : jsstring) (m : MatchResult) : Finding :=
  let char := matched m in
  let codepoint :=
    lit "U+" ++ padStart0 4 (toUpperCase (Number_toString 16 (charCodeAt char 0))) in
  let name := Obj.get char UNSAFE_CHARS in
  let beforeMatch := substring0 content (index m) in
  let lineNumber := length (split 0x0A beforeMatch) in
  mkFinding char codepoint name (index m) lineNumber.

(** [while ((match = unsafePattern.exec(content)) !== null) { ... }]
    (lines 61-77).  [None] when [fuel] iterations do not reach the
    failing [exec] that ends the loop. *)
Fixpoint scan_loop (fuel : nat) (content : jsstring) (re : RegExp)
  (findings : list Finding) : option (list Finding * RegExp) :=
  match fuel with
  | 0 => None
  | S fuel' =>
      match exec re content with
      | (None, re') => Some (findings, re')
      | (Some m, re') =>
          scan_loop fuel' content re' (findings ++ [finding_of content m])
      end
  end.

(** The files of the working tree: the bytes of each readable path.
    [None] is a path [readFileSync] cannot read (missing, a directory, no
    permission). *)
Definition Disk := jsstring -> option (list Byte.byte).

(** [readFileSync(filePath, 'utf-8')]: [None] when the call throws.  The
    decoded text keeps a leading byte-order mark. *)
Definition readFileSync (d : Disk) (filePath : jsstring) : option jsstring :=
  match d filePath with
  | None => None
  | Some bytes => Some (flat_map utf16 (Utf8.decode bytes))
  end.

(** [function scanFile(filePath)] (lines 54-84).  The [catch] branch leaves
    [unsafePattern] as it was: the reset of line 60 comes after the read. *)
Definition scanFile (d : Disk) (re : RegExp) (filePath : jsstring)
  : option (list Finding * RegExp) :=
  match readFileSync d filePath with
  | None => Some ([], re)
  | Some content =>
      scan_loop (S (length content)) content (set_lastIndex re 0) []
  end.

(* ===================================================================== *)
(** ** The whole run *)
(* ===================================================================== *)

(** What the script meets in its environment: the string [execSync]
    returns for [git ls-files], the standard output of the command as git
    printed it ([None] when [execSync] throws: the command fails, or it
    prints more than the buffer of [execSync] holds); the files; and for
    each path whether [writeFileSync] can write it (its directory exists
    and the file can be created or replaced). *)
Record World := mkWorld {
  git_ls_files : option jsstring;
  disk : Disk;
  writable : jsstring -> bool
}.

(** A call either returns or ends the process through [process.exit]. *)
Inductive completion (A : Type) :=
| Return (a : A)
| Exit (code : N).

Arguments Return {A} a.
Arguments Exit {A} code.

(** [function getGitFiles()] (lines 43-51) *)
Definition getGitFiles (w : World) : completion (list jsstring) :=
  match git_ls_files w with
  | Some output =>
      Return (filter (fun f => 0 <? length (trim f)) (split 0x0A output))
  | None => Exit 1
  end.

(** The [for] loop of lines 94-100.  [scanned] is the log of the calls of
    [scanFile]: the path of each call, in the order of the calls. *)
Fixpoint scan_files (d : Disk) (files : list jsstring) (re : RegExp)
  (results : Obj.t (list Finding)) (totalFindings : nat)
  (scanned : list jsstring)
  : option (Obj.t (list Finding) * nat * RegExp * list jsstring) :=
  match files with
  | [] => Some (results, totalFindings, re, scanned)
  | file :: rest =>
      match scanFile d re file with
      | None => None
      | Some (findings, re') =>
          if 0 <? length findings
          then scan_files d rest re' (Obj.assign file findings results)
                 (totalFindings + length findings) (scanned ++ [file])
          else scan_files d rest re' results totalFindings (scanned ++ [file])
      end
  end.

Definition jsonPath : jsstring := lit "docs/ops/reports/_tmp_bidi_scan.json".

(** A finding as [JSON.stringify] sees it: a property whose value is
    [undefined] is left out. *)
Definition finding_json (f : Finding) : JSON.value :=
  JSON.Object
    ([(lit "char", JSON.Str (char f)); (lit "codepoint", JSON.Str (codepoint f))]
     ++ match name f with
        | Some n => [(lit "name", JSON.Str n)]
        | None => []
        end
     ++ [(lit "position", JSON.Num (position f)); (lit "line", JSON.Num (line f))]).

Definition results_json (results : Obj.t (list Finding)) : JSON.value :=
  JSON.Object
    (map (fun p => (fst p, JSON.Arr (map finding_json (snd p))))
         (Obj.entries results)).

(** [writeFileSync(path, data, 'utf-8')]: the path and the bytes that reach
    the file, or [None] when the call throws because the path cannot be
    written.  The script creates no directory. *)
Definition writeFileSync (w : World) (path data : jsstring)
  : option (jsstring * list Byte.byte) :=
  if writable w path then Some (path, Utf8.encode data) else None.

(** What a run does to its environment: the paths [scanFile] was called
    with, in order; the files [writeFileSync] wrote, in order, each with its
    bytes; and the exit status of the process, which is the argument of
    [process.exit] or, when an exception nobody catches ended the run, 1.
    The console output is modelled apart, in [Console]. *)
Record Run := mkRun {
  scanned : list jsstring;
  written : list (jsstring * list Byte.byte);
  exit_code : N
}.

(** [function main()] (lines 87-134); [None] only if a scan runs out of
    fuel.  Nothing catches an exception of the [writeFileSync] of line 104:
    it ends the run there, before the console report and before line 133. *)
Definition main (w : World) : option Run :=
  match getGitFiles w with
  | Exit code => Some (mkRun [] [] code)
  | Return files =>
      match scan_files (disk w) files unsafePattern Obj.empty 0 [] with
      | None => None
      | Some (results, totalFindings, _, scanned) =>
          match writeFileSync w jsonPath (JSON.stringify (results_json results)) with
          | Some file =>
              Some (mkRun scanned [file]
                      (if 0 <? totalFindings then 1%N else 0%N))
          | None => Some (mkRun scanned [] 1%N)
          end
      end
  end.

(** The findings [scanFile] returns for a path, from the state the pattern
    has when the script starts. *)
Definition findings_in (d : Disk) (filePath : jsstring) : list Finding :=
  match scanFile d unsafePattern filePath with
  | Some (findings, _) => findings
  | None => []
  end.

(* ===================================================================== *)
(** ** The notions of the specification *)
(* ===================================================================== *)

Module Spec.

(** The catalogue table of the specification (section 6), row by row. *)
Definition catalogue : list (N * string) :=
  [ (0x202A%N, "LRE (Left-to-Right Embedding)"%string);
    (0x202B%N, "RLE (Right-to-Left Embedding)"%string);
    (0x202C%N, "PDF (Pop Directional Formatting)"%string);
    (0x202D%N, "LRO (Left-to-Right Override)"%string);
    (0x202E%N, "RLO (Right-to-Left Override)"%string);
    (0x2066%N, "LRI (Left-to-Right Isolate)"%string);
    (0x2067%N, "RLI (Right-to-Left Isolate)"%string);
    (0x2068%N, "FSI (First Strong Isolate)"%string);
    (0x2069%N, "PDI (Pop Directional Isolate)"%string);
    (0x200B%N, "ZWSP (Zero Width Space)"%string);
    (0x200C%N, "ZWNJ (Zero Width Non-Joiner)"%string);
    (0x200D%N, "ZWJ (Zero Width Joiner)"%string);
    (0x200E%N, "LRM (Left-to-Right Mark)"%string);
    (0x200F%N, "RLM (Right-to-Left Mark)"%string);
    (0xFEFF%N, "BOM/ZWNBSP (Zero Width No-Break Space)"%string) ].

(** A codepoint is catalogued when the table has a row for it. *)
Definition catalogued (c : N) : bool :=
  existsb (N.eqb c) (map fst catalogue).

(** The name the table gives to a codepoint. *)
Fixpoint name_in (rows : list (N * string)) (c : N) : option jsstring :=
  match rows with
  | [] => None
  | (k, nm) :: rows' => if (c =? k)%N then Some (lit nm) else name_in rows' c
  end.

Definition name_of (c : N) : option jsstring := name_in catalogue c.

(** Whether the code unit at an index of a text is catalogued. *)
Definition catalogued_at (content : jsstring) (i : nat) : bool :=
  match nth_error content i with
  | Some c => catalogued c
  | None => false
  end.

(** The positions of a text that hold a catalogued codepoint, ascending. *)
Definition occurrences (content : jsstring) : list nat :=
  filter (catalogued_at content) (seq 0 (length content)).

(** The number of line feeds strictly before an offset. *)
Definition newlines_before (content : jsstring) (offset : nat) : nat :=
  count_occ N.eq_dec (firstn offset content) 0x0A%N.

(** An upper-case hexadecimal digit. *)
Definition hex_digit (d : N) : N :=
  if (d <? 10)%N then (48 + d)%N else (65 + (d - 10))%N.

(** ["U+"] followed by the four-digit upper-case hexadecimal numeral of a
    16-bit value. *)
Definition label (c : N) : jsstring :=
  lit "U+" ++ [hex_digit (c / 4096); hex_digit ((c / 256) mod 16);
               hex_digit ((c / 16) mod 16); hex_digit (c mod 16)]%N.

(** A segment has a character that is not white space. *)
Definition has_visible (segment : jsstring) : bool :=
  existsb (fun c => negb (is_whitespace c)) segment.

(** The number of UTF-16 code units before the character of index [k],
    characters being delimited as string iteration delimits them: two for a
    surrogate pair, one for anything else. *)
Fixpoint units_before (s : jsstring) (k : nat) : nat :=
  match k with
  | 0 => 0
  | S k' =>
      match s with
      | [] => 0
      | c :: r =>
          if is_high_surrogate c then
            match r with
            | d :: r' =>
                if is_low_surrogate d then 2 + units_before r' k'
                else 1 + units_before r k'
            | [] => 1
            end
          else 1 + units_before r k'
      end
  end.

(** The sum of the finding counts of the scanned files. *)
Definition total_findings (d : Disk) (files : list jsstring) : nat :=
  list_sum (map (fun file => length (findings_in d file)) files).

(** The report read as always written: every run that obtained its file
    list writes the report file, once, at the fixed path, and the empty
    object when no file has a finding. *)
Definition report_always_written : Prop :=
  forall (w : World) (files : list jsstring),
    getGitFiles w = Return files ->
    exists r bytes,
      main w = Some r
      /\ written r = [(jsonPath, bytes)]
      /\ (total_findings (disk w) files = 0 ->
          bytes = Utf8.encode (JSON.stringify (JSON.Object []))).

(** The offset of a finding read as a character index: every catalogued
    character of a readable file has a finding whose offset is the number
    of characters before it. *)
Definition offset_is_character_index : Prop :=
  forall (d : Disk) (filePath content : jsstring) (k : nat) (cp : N),
    readFileSync d filePath = Some content ->
    nth_error (codePoints content) k = Some cp ->
    catalogued cp = true ->
    exists f, In f (findings_in d filePath) /\ position f = k.

End Spec.

(** The pattern with its [lastIndex] at [i]: every state the shared
    pattern can be in. *)
Definition pattern_at (i : nat) : RegExp := set_lastIndex unsafePattern i.

(** One finding for each catalogued code unit of [s], the rest of
    [content] from index [i] on: what the loop of [scanFile] computes. *)
Fixpoint findings_from (content : jsstring) (i : nat) (s : jsstring) : list Finding :=
  match s with
  | [] => []
  | c :: r =>
      if Spec.catalogued c
      then finding_of content (mkMatch [c] i) :: findings_from content (S i) r
      else findings_from content (S i) r
  end.

(** The report the loop of [main] builds from [results]: each file with
    findings is assigned in turn. *)
Definition collect (d : Disk) (files : list jsstring)
  (results : Obj.t (list Finding)) : Obj.t (list Finding) :=
  fold_left
    (fun acc file =>
       if 0 <? length (findings_in d file)
       then Obj.assign file (findings_in d file) acc
       else acc)
    files results.

(** The files after the calls of [writeFileSync] of a run. *)
Definition disk_after (d : Disk) (r : Run) : Disk :=
  fold_left
    (fun acc entry path =>
       if JS.eqb path (fst entry) then Some (snd entry) else acc path)
    (written r) d.

(** The world a second run starts from: the same listing, the files as
    the first run left them, the same paths writable. *)
Definition world_after (w : World) (r : Run) : World :=
  mkWorld (git_ls_files w) (disk_after (disk w) r) (writable w).

(* ===================================================================== *)
(** ** Sample inputs *)
(* ===================================================================== *)

Module Sample.

Import Byte.

(** U+202E followed by [desc.txt]. *)
Definition rlo_file : list byte :=
  [xe2; x80; xae; x64; x65; x73; x63; x2e; x74; x78; x74].

(** U+1F600 (four bytes) followed by U+202E. *)
Definition astral_file : list byte := [xf0; x9f; x98; x80; xe2; x80; xae].

(** The byte FF, which no UTF-8 text contains, followed by U+202E. *)
Definition binary_file : list byte := [xff; xe2; x80; xae].

(** Three lines, with U+200B as the third character of the second. *)
Definition zwsp_file : list byte :=
  [x61; x62; x0a; x63; x64; xe2; x80; x8b; x65; x66; x0a; x67; x68].

(** A byte-order mark followed by ASCII. *)
Definition bom_file : list byte := [xef; xbb; xbf; x61; x62; x63; x0a].

(** Two lines of ASCII. *)
Definition clean_file : list byte := [x6f; x6b; x0a; x6f; x6b; x0a].

(** The text of [rlo_file] and of [astral_file]. *)
Definition rlo_text : jsstring := 0x202E%N :: lit "desc.txt".
Definition astral_text : jsstring := [0xD83D%N; 0xDE00%N; 0x202E%N].
Definition zwsp_text : jsstring :=
  lit "ab" ++ [0x0A%N] ++ lit "cd" ++ [0x200B%N] ++ lit "ef" ++ [0x0A%N] ++ lit "gh".

(** A working tree with seven files; any other path cannot be read. *)
Definition tree : Disk := fun path =>
  if JS.eqb path (lit "desc.txt") then Some rlo_file
  else if JS.eqb path (lit "astral.txt") then Some astral_file
  else if JS.eqb path (lit "blob.bin") then Some binary_file
  else if JS.eqb path (lit "clean.txt") then Some clean_file
  else if JS.eqb path (lit "lines.txt") then Some zwsp_file
  else if JS.eqb path (lit "bom.txt") then Some bom_file
  else if JS.eqb path (lit "__proto__") then Some rlo_file
  else None.

(** A text with one line for each of the given strings, each ended by a
    line feed.  A line is whatever the listing command printed; for a path
    that git does not quote the line is the path. *)
Definition listing (paths : list jsstring) : jsstring :=
  flat_map (fun path => path ++ [0x0A%N]) paths.

(** The tree with the given listing, in a checkout where the report can
    be written. *)
Definition world (paths : list jsstring) : World :=
  mkWorld (Some (listing paths)) tree (fun _ => true).

(** The same in a checkout without the directory [docs/ops/reports]:
    nothing below it can be written. *)
Definition world_without_reports (paths : list jsstring) : World :=
  mkWorld (Some (listing paths)) tree
    (fun path => negb (startsWith (lit "docs/ops/reports/") path)).

(** The run over two of the files, both with a finding. *)
Definition two_files : list jsstring := [lit "desc.txt"; lit "lines.txt"].

Definition first_run : Run :=
  match main (world two_files) with
  | Some r => r
  | None => mkRun [] [] 0%N
  end.

End Sample.

(* ===================================================================== *)
(** ** The console report *)
(* ===================================================================== *)

Module Console.

(** The strings [console.log] received, call by call.  [Threw] is a run
    that an exception ended after the lines it carries. *)
Inductive printed :=
| Completed (lines : list jsstring)
| Threw (lines : list jsstring).

(** A count inside a template literal. *)
Definition number (n : nat) : jsstring :=
  Number_toString 10 (Some (N.of_nat n)).

(** Line 88. *)
Definition banner : jsstring :=
  lit "Scanning git-tracked files for unsafe Unicode control characters..."
  ++ [0x0A%N].

(** Line 108; the three leading characters as the source file has them. *)
Definition success_line : jsstring :=
  [0xE2; 0x153; 0x2026]%N
  ++ lit " No unsafe Unicode control characters found." ++ [0x0A%N].

(** Line 110. *)
Definition header (totalFindings files : nat) : jsstring :=
  [0xE2; 0x161; 0xA0; 0xEF; 0xB8]%N ++ lit "  Found " ++ number totalFindings
  ++ lit " unsafe character(s) in " ++ number files
  ++ lit " file(s):" ++ [0x0A%N].

(** Line 113. *)
Definition file_line (file : jsstring) : jsstring :=
  [0x11F; 0x178; 0x201C; 0x201E]%N ++ lit " " ++ file ++ lit ":".

(** [counts[finding.codepoint] = (counts[finding.codepoint] || 0) + 1]
    (line 118).  The keys are codepoint labels, which start with [U+]; no
    property of [Object.prototype] has such a name, so the read sees own
    properties only. *)
Definition count_step (counts : Obj.t nat) (finding : Finding) : Obj.t nat :=
  let seen :=
    match Obj.get (codepoint finding) counts with
    | Some n => n
    | None => 0
    end in
  Obj.assign (codepoint finding) (seen + 1) counts.

(** [counts] after the loop of lines 116-119. *)
Definition count_by_codepoint (findings : list Finding) : Obj.t nat :=
  fold_left count_step findings Obj.empty.

(** [${example.name}] *)
Definition name_text (example : Finding) : jsstring :=
  match name example with
  | Some n => n
  | None => lit "undefined"
  end.

(** Line 123. *)
Definition count_line (label : jsstring) (example : Finding) (count : nat) : jsstring :=
  lit "   " ++ label ++ lit " (" ++ name_text example ++ lit "): "
  ++ number count ++ lit "x".

(** The loop of lines 121-124 over the entries of [counts].  Reading
    [example.name] throws when [find] returned [undefined]. *)
Fixpoint log_counts (findings : list Finding) (entries : list (jsstring * nat))
  (out : list jsstring) : printed :=
  match entries with
  | [] => Completed out
  | (label, count) :: rest =>
      match find (fun f => JS.eqb (codepoint f) label) findings with
      | Some example =>
          log_counts findings rest (out ++ [count_line label example count])
      | None => Threw out
      end
  end.

(** The loop of lines 112-126 over the entries of [results]. *)
Fixpoint log_files (entries : list (jsstring * list Finding))
  (out : list jsstring) : printed :=
  match entries with
  | [] => Completed out
  | (file, findings) :: rest =>
      match log_counts findings (Obj.entries (count_by_codepoint findings))
              (out ++ [file_line file]) with
      | Completed out' => log_files rest (out' ++ [[]])
      | Threw out' => Threw out'
      end
  end.

(** Line 128 and line 129. *)
Definition summary_line (totalFindings : nat) : jsstring :=
  [0x11F; 0x178; 0x201C; 0x160]%N ++ lit " Summary: " ++ number totalFindings
  ++ lit " total findings".

Definition report_line : jsstring :=
  [0x11F; 0x178; 0x201C]%N ++ lit " JSON report: " ++ jsonPath ++ [0x0A%N].

(** Lines 106-130. *)
Definition report (results : Obj.t (list Finding)) (totalFindings : nat)
  (out : list jsstring) : printed :=
  if totalFindings =? 0 then Completed (out ++ [success_line])
  else
    match log_files (Obj.entries results)
            (out ++ [header totalFindings (length (Obj.keys results))]) with
    | Completed out' =>
        Completed (out' ++ [summary_line totalFindings; report_line])
    | Threw out' => Threw out'
    end.

(** The standard output of [main]; [None] only if a scan runs out of
    fuel.  The message of line 48 goes to the standard error.  When the
    [writeFileSync] of line 104 throws, the report of lines 106-130 is not
    reached. *)
Definition stdout (w : World) : option printed :=
  match getGitFiles w with
  | Exit _ => Some (Completed [banner])
  | Return files =>
      match scan_files (disk w) files unsafePattern Obj.empty 0 [] with
      | None => None
      | Some (results, totalFindings, _, _) =>
          match writeFileSync w jsonPath (JSON.stringify (results_json results)) with
          | Some _ => Some (report results totalFindings [banner])
          | None => Some (Threw [banner])
          end
      end
  end.

End Console.

(* ===================================================================== *)
(** ** Reading a label back *)
(* ===================================================================== *)

(** The value of an upper-case hexadecimal digit. *)
Definition hex_digit_value (c : N) : option N :=
  if ((48 <=? c) && (c <=? 57))%N then Some (c - 48)%N
  else if ((65 <=? c) && (c <=? 70))%N then Some (c - 55)%N
  else None.

Definition hex_step (acc : option N) (c : N) : option N :=
  match acc, hex_digit_value c with
  | Some a, Some v => Some (16 * a + v)%N
  | _, _ => None
  end.

(** The value of an upper-case hexadecimal numeral. *)
Definition hex_value (s : jsstring) : option N :=
  fold_left hex_step s (Some 0%N).

(** The code unit a label [U+XXXX] names. *)
Definition label_value (label : jsstring) : option N :=
  match label with
  | 85%N :: 43%N :: d :: numeral => hex_value (d :: numeral)
  | _ => None
  end.

(** A finding of a text [b] as it appears when [b] follows a text [a]. *)
Definition shift_finding (a : jsstring) (f : Finding) : Finding :=
  mkFinding (char f) (codepoint f) (name f)
    (length a + position f)
    (count_occ N.eq_dec a 0x0A%N + line f).

(* ===================================================================== *)
(** ** Strings, objects and the pattern *)
(* ===================================================================== *)

#[local] Arguments N.add _ _ : simpl never.
#[local] Arguments N.mul _ _ : simpl never.
#[local] Arguments N.sub _ _ : simpl never.
#[local] Arguments N.div _ _ : simpl never.
#[local] Arguments N.modulo _ _ : simpl never.

Lemma eqb_eq (a b : jsstring) : JS.eqb a b = true <-> a = b.
Proof.
  revert b; induction a as [|x a IH]; intros [|y b]; simpl; split;
    try discriminate; try reflexivity.
  - intros H. apply andb_true_iff in H as [Hx Hab].
    apply N.eqb_eq in Hx. apply IH in Hab. now subst.
  - intros H. injection H as -> ->. apply andb_true_iff; split.
    + apply N.eqb_refl.
    + now apply IH.
Qed.

Lemma eqb_refl (a : jsstring) : JS.eqb a a = true.
Proof. now apply eqb_eq. Qed.

Lemma eqb_neq (a b : jsstring) : JS.eqb a b = false <-> a <> b.
Proof.
  split.
  - intros H E. apply eqb_eq in E. congruence.
  - intros H. destruct (JS.eqb a b) eqn:E; [|reflexivity].
    apply eqb_eq in E. contradiction.
Qed.

(** The fuel [Number_toString] gives to [digits] is enough: more fuel
    prints the same numeral. *)
Lemma digits_fuel (base : N) (fuel : nat) :
  (2 <= base)%N ->
  forall (n : N) (fuel' : nat),
    (n < 2 ^ N.of_nat fuel)%N -> fuel <= fuel' ->
    digits fuel' base n = digits fuel base n.
Proof.
  intros Hbase. induction fuel as [|fuel IH]; intros n fuel' Hn Hle.
  - assert (n = 0%N) by (cbn in Hn; lia). subst n.
    destruct fuel' as [|fuel']; [reflexivity|].
    cbn [digits]. replace (0 <? base)%N with true
      by (symmetry; apply N.ltb_lt; lia).
    now rewrite N.Div0.mod_0_l.
  - destruct fuel' as [|fuel']; [lia|]. cbn [digits].
    destruct (n <? base)%N eqn:Hlt; [reflexivity|].
    f_equal. apply IH; [|lia].
    rewrite Nat2N.inj_succ, N.pow_succ_r' in Hn.
    apply N.Div0.div_lt_upper_bound.
    apply N.lt_le_trans with (1 := Hn).
    apply N.mul_le_mono_r. exact Hbase.
Qed.

Lemma Number_toString_fuel (base n : N) (fuel : nat) :
  (2 <= base)%N -> N.to_nat (N.size n) <= fuel ->
  digits fuel base n = Number_toString base (Some n).
Proof.
  intros Hbase Hfuel. cbn [Number_toString].
  apply digits_fuel; [exact Hbase| |exact Hfuel].
  rewrite N2Nat.id. apply N.size_gt.
Qed.

Lemma keys_UNSAFE_CHARS :
  Obj.keys UNSAFE_CHARS = map (fun row => [fst row]) Spec.catalogue.
Proof. reflexivity. Qed.

(** The fifteen catalogued code units, one case each. *)
Lemma catalogued_cases (c : N) :
  Spec.catalogued c = true ->
  In c (map fst Spec.catalogue).
Proof.
  unfold Spec.catalogued. intros H.
  apply existsb_exists in H as [k [Hin Hk]].
  apply N.eqb_eq in Hk. now subst.
Qed.

Lemma find_singleton (ks : list N) (c : N) (r : jsstring) :
  find (fun a => startsWith a (c :: r)) (map (fun k => [k]) ks) =
  if existsb (N.eqb c) ks then Some [c] else None.
Proof.
  induction ks as [|k ks IH]; simpl; [reflexivity|].
  rewrite andb_true_r, (N.eqb_sym c k).
  destruct (k =? c)%N eqn:Hk; simpl; [|exact IH].
  apply N.eqb_eq in Hk. now subst.
Qed.

Lemma match_here_unsafe (c : N) (r : jsstring) :
  match_here (Obj.keys UNSAFE_CHARS) (c :: r) =
  if Spec.catalogued c then Some [c] else None.
Proof.
  rewrite keys_UNSAFE_CHARS. unfold match_here, Spec.catalogued.
  rewrite <- find_singleton with (r := r). now rewrite map_map.
Qed.

Lemma match_here_end : match_here (Obj.keys UNSAFE_CHARS) [] = None.
Proof. reflexivity. Qed.

Lemma search_unfold (alts : list jsstring) (s : jsstring) (i : nat) :
  search alts s i =
  match match_here alts s with
  | Some a => Some (mkMatch a i)
  | None => match s with
            | [] => None
            | _ :: r => search alts r (S i)
            end
  end.
Proof. destruct s; reflexivity. Qed.

(** A search from a code unit that is not catalogued goes on from the
    next index. *)
Lemma search_skip (c : N) (r : jsstring) (i : nat) :
  Spec.catalogued c = false ->
  search (Obj.keys UNSAFE_CHARS) (c :: r) i =
  search (Obj.keys UNSAFE_CHARS) r (S i).
Proof.
  intros Hc. now rewrite search_unfold, match_here_unsafe, Hc.
Qed.

Lemma search_hit (c : N) (r : jsstring) (i : nat) :
  Spec.catalogued c = true ->
  search (Obj.keys UNSAFE_CHARS) (c :: r) i = Some (mkMatch [c] i).
Proof.
  intros Hc. now rewrite search_unfold, match_here_unsafe, Hc.
Qed.

Lemma skipn_cons_S (A : Type) (l : list A) (i : nat) (x : A) (r : list A) :
  skipn i l = x :: r -> skipn (S i) l = r.
Proof.
  revert i; induction l as [|y l IH]; intros [|i] H; simpl in *;
    try discriminate.
  - now injection H.
  - now apply IH.
Qed.

Lemma skipn_length_le (A : Type) (l : list A) (i : nat) (x : A) (r : list A) :
  skipn i l = x :: r -> i < length l.
Proof.
  intros H. destruct (Nat.lt_ge_cases i (length l)) as [Hlt|Hge]; [exact Hlt|].
  rewrite skipn_all2 in H by exact Hge. discriminate.
Qed.

(** The loop, started anywhere in the text with fuel for the rest of it,
    appends the findings of the rest and leaves the pattern reset. *)
Lemma scan_loop_from (content : jsstring) (s : jsstring) :
  forall (i fuel : nat) (acc : list Finding),
    skipn i content = s -> i <= length content -> length s < fuel ->
    scan_loop fuel content (pattern_at i) acc =
    Some (acc ++ findings_from content i s, unsafePattern).
Proof.
  induction s as [|c r IH]; intros i fuel acc Hs Hi Hfuel.
  - destruct fuel as [|fuel]; [inversion Hfuel|].
    simpl. unfold exec. simpl lastIndex.
    destruct (length content <? i) eqn:Hlt.
    + now rewrite app_nil_r.
    + simpl alternatives. rewrite Hs. simpl. now rewrite app_nil_r.
  - destruct fuel as [|fuel]; [inversion Hfuel|].
    pose proof (skipn_length_le _ _ Hs) as Hlen.
    assert (Hnlt : (length content <? i) = false) by (apply Nat.ltb_ge; lia).
    destruct (Spec.catalogued c) eqn:Hc.
    + simpl scan_loop. unfold exec. simpl lastIndex. rewrite Hnlt.
      simpl alternatives. rewrite Hs, search_hit by exact Hc. simpl.
      change (set_lastIndex (pattern_at i) (i + 1)) with (pattern_at (i + 1)).
      rewrite Nat.add_1_r.
      rewrite (IH (S i) fuel); [|now apply skipn_cons_S with (x := c)|lia|simpl in Hfuel; lia].
      rewrite Hc, <- app_assoc. reflexivity.
    + assert (Hstep : scan_loop (S fuel) content (pattern_at i) acc =
                      scan_loop (S fuel) content (pattern_at (S i)) acc).
      { simpl scan_loop. unfold exec. simpl lastIndex. rewrite Hnlt.
        assert (Hnlt' : (length content <? S i) = false) by (apply Nat.ltb_ge; lia).
        rewrite Hnlt'. simpl alternatives.
        rewrite Hs, (skipn_cons_S _ _ Hs), search_skip by exact Hc. reflexivity. }
      rewrite Hstep.
      rewrite (IH (S i) (S fuel)); [|now apply skipn_cons_S with (x := c)|lia|simpl in Hfuel; lia].
      simpl findings_from. now rewrite Hc.
Qed.

(** [scanFile] on a readable file, whatever state the pattern is in. *)
Lemma scanFile_readable (d : Disk) (i : nat) (filePath content : jsstring) :
  readFileSync d filePath = Some content ->
  scanFile d (pattern_at i) filePath =
  Some (findings_from content 0 content, unsafePattern).
Proof.
  intros Hr. unfold scanFile. rewrite Hr.
  change (set_lastIndex (pattern_at i) 0) with (pattern_at 0).
  rewrite (@scan_loop_from content content 0); simpl; auto; lia.
Qed.

(** [scanFile] on a file that cannot be read: the pattern is untouched. *)
Lemma scanFile_unreadable (d : Disk) (re : RegExp) (filePath : jsstring) :
  readFileSync d filePath = None ->
  scanFile d re filePath = Some ([], re).
Proof. intros Hr. unfold scanFile. now rewrite Hr. Qed.

Lemma findings_in_readable (d : Disk) (filePath content : jsstring) :
  readFileSync d filePath = Some content ->
  findings_in d filePath = findings_from content 0 content.
Proof.
  intros Hr. unfold findings_in.
  change unsafePattern with (pattern_at 0).
  now rewrite (scanFile_readable _ 0 _ Hr).
Qed.

Lemma findings_in_unreadable (d : Disk) (filePath : jsstring) :
  readFileSync d filePath = None ->
  findings_in d filePath = [].
Proof.
  intros Hr. unfold findings_in. now rewrite scanFile_unreadable.
Qed.

(** [scanFile] always returns, and what it returns does not depend on the
    state the pattern was left in. *)
Lemma scanFile_total (d : Disk) (i : nat) (filePath : jsstring) :
  exists re', scanFile d (pattern_at i) filePath = Some (findings_in d filePath, re')
              /\ (re' = unsafePattern \/ re' = pattern_at i).
Proof.
  destruct (readFileSync d filePath) as [content|] eqn:Hr.
  - exists unsafePattern. rewrite (scanFile_readable _ i _ Hr).
    rewrite (findings_in_readable _ _ Hr). auto.
  - exists (pattern_at i). rewrite scanFile_unreadable by exact Hr.
    rewrite findings_in_unreadable by exact Hr. auto.
Qed.

(* ===================================================================== *)
(** ** The findings of one text *)
(* ===================================================================== *)

Lemma nth_error_skipn_head (A : Type) (l : list A) (i : nat) (x : A) (r : list A) :
  skipn i l = x :: r -> nth_error l i = Some x.
Proof.
  revert i; induction l as [|y l IH]; intros [|i] H; simpl in *;
    try discriminate.
  - now injection H as -> _.
  - now apply IH.
Qed.

Lemma positions_from (content s : jsstring) :
  forall i, skipn i content = s ->
    map position (findings_from content i s) =
    filter (Spec.catalogued_at content) (seq i (length s)).
Proof.
  induction s as [|c r IH]; intros i Hs; [reflexivity|].
  simpl. unfold Spec.catalogued_at at 1.
  rewrite (nth_error_skipn_head _ _ Hs).
  pose proof (IH (S i) (skipn_cons_S _ _ Hs)) as IH'.
  destruct (Spec.catalogued c); simpl; now rewrite IH'.
Qed.

Lemma seq_strictly_sorted (a n : nat) : StronglySorted lt (seq a n).
Proof.
  revert a; induction n as [|n IH]; intros a; simpl; constructor.
  - apply IH.
  - apply Forall_forall. intros x Hx. apply in_seq in Hx. lia.
Qed.

Lemma filter_strictly_sorted (f : nat -> bool) (l : list nat) :
  StronglySorted lt l -> StronglySorted lt (filter f l).
Proof.
  induction 1 as [|x l Hl IH Hx]; simpl; [constructor|].
  destruct (f x); [|exact IH]. constructor; [exact IH|].
  apply Forall_forall. intros y Hy. apply filter_In in Hy as [Hy _].
  rewrite Forall_forall in Hx. now apply Hx.
Qed.

(** Every finding of a text is the finding of a catalogued code unit at
    the finding's own position. *)
Lemma findings_from_In (content s : jsstring) (f : Finding) :
  forall i, skipn i content = s ->
    In f (findings_from content i s) ->
    exists c, nth_error content (position f) = Some c
              /\ Spec.catalogued c = true
              /\ f = finding_of content (mkMatch [c] (position f)).
Proof.
  induction s as [|c r IH]; intros i Hs Hin; [contradiction|].
  simpl in Hin. pose proof (skipn_cons_S _ _ Hs) as Hr.
  destruct (Spec.catalogued c) eqn:Hc.
  - destruct Hin as [<-|Hin]; [|now apply (IH (S i))].
    exists c. simpl. rewrite (nth_error_skipn_head _ _ Hs). auto.
  - now apply (IH (S i)).
Qed.

(** Conversely, every catalogued code unit of a text has its finding. *)
Lemma findings_from_complete (content s : jsstring) :
  forall i j c, skipn i content = s -> i <= j ->
    nth_error content j = Some c -> Spec.catalogued c = true ->
    In (finding_of content (mkMatch [c] j)) (findings_from content i s).
Proof.
  induction s as [|x r IH]; intros i j c Hs Hij Hj Hc.
  - exfalso. assert (j < length content) by (apply nth_error_Some; congruence).
    assert (length (skipn i content) = 0) by now rewrite Hs.
    rewrite length_skipn in *. lia.
  - pose proof (skipn_cons_S _ _ Hs) as Hr.
    pose proof (nth_error_skipn_head _ _ Hs) as Hi.
    simpl. destruct (Nat.eq_dec i j) as [->|Hne].
    + rewrite Hi in Hj. injection Hj as ->. rewrite Hc. now left.
    + assert (Hin : In (finding_of content (mkMatch [c] j))
                       (findings_from content (S i) r))
        by (apply IH; auto; lia).
      destruct (Spec.catalogued x); [now right|exact Hin].
Qed.

Lemma split_length (sep : N) (s : jsstring) :
  length (split sep s) = S (count_occ N.eq_dec s sep).
Proof.
  induction s as [|c r IH]; [reflexivity|].
  simpl. destruct (N.eq_dec c sep) as [->|Hne].
  - rewrite N.eqb_refl. simpl. now rewrite IH.
  - apply N.eqb_neq in Hne. rewrite Hne.
    destruct (split sep r) as [|seg segs]; [discriminate IH|exact IH].
Qed.

(** The label and the name the code computes for a catalogued code unit
    are the ones of the specification's table. *)
Lemma finding_of_catalogued (content : jsstring) (c : N) (i : nat) :
  Spec.catalogued c = true ->
  codepoint (finding_of content (mkMatch [c] i)) = Spec.label c
  /\ name (finding_of content (mkMatch [c] i)) = Spec.name_of c
  /\ Spec.name_of c <> None.
Proof.
  intros Hc. apply catalogued_cases in Hc. simpl in Hc.
  repeat (destruct Hc as [<-|Hc];
          [repeat split; try reflexivity; discriminate|]).
  contradiction.
Qed.

Lemma count_occ_occurrences (content : jsstring) (j : nat) :
  count_occ Nat.eq_dec (Spec.occurrences content) j =
  if Spec.catalogued_at content j then 1 else 0.
Proof.
  unfold Spec.occurrences.
  destruct (Spec.catalogued_at content j) eqn:Hj.
  - apply NoDup_count_occ'.
    + apply NoDup_filter, seq_NoDup.
    + apply filter_In. split; [|exact Hj]. apply in_seq.
      unfold Spec.catalogued_at in Hj.
      destruct (nth_error content j) eqn:E; [|discriminate].
      assert (j < length content) by (apply nth_error_Some; congruence). lia.
  - apply count_occ_not_In. intros Hin. apply filter_In in Hin as [_ Hin].
    congruence.
Qed.

(** The code points of a string, by cases on how string iteration reads
    its head. *)
Lemma codePoints_induction (P : jsstring -> Prop) :
  P [] ->
  (forall c r, is_high_surrogate c = false -> P r -> P (c :: r)) ->
  (forall c, is_high_surrogate c = true -> P [c]) ->
  (forall c d r, is_high_surrogate c = true -> is_low_surrogate d = true ->
                 P r -> P (c :: d :: r)) ->
  (forall c d r, is_high_surrogate c = true -> is_low_surrogate d = false ->
                 P (d :: r) -> P (c :: d :: r)) ->
  forall s, P s.
Proof.
  intros Hnil Hunit Hlast Hpair Hlone s.
  assert (H : forall n s, length s <= n -> P s).
  { induction n as [|n IH]; intros [|c r] Hlen; simpl in Hlen;
      try exact Hnil; try lia.
    destruct (is_high_surrogate c) eqn:Hc.
    - destruct r as [|d r]; [now apply Hlast|].
      destruct (is_low_surrogate d) eqn:Hd.
      + apply Hpair; auto. apply IH. simpl in Hlen. lia.
      + apply Hlone; auto. apply IH. simpl in *. lia.
    - apply Hunit; auto. apply IH. lia. }
  now apply (H (length s)).
Qed.

Lemma pair_not_catalogued (c d : N) :
  is_high_surrogate c = true ->
  Spec.catalogued (0x10000 + (c - 0xD800) * 0x400 + (d - 0xDC00)) = false.
Proof.
  intros _.
  remember (0x10000 + (c - 0xD800) * 0x400 + (d - 0xDC00))%N as cp eqn:Hcp.
  assert (Hge : (0x10000 <= cp)%N) by lia. clear Hcp.
  destruct (Spec.catalogued cp) eqn:E; [|reflexivity].
  apply catalogued_cases in E. simpl in E.
  repeat (destruct E as [E|E]; [subst cp; now apply N.leb_le in Hge|]).
  contradiction.
Qed.

Lemma codePoints_unit (c : N) (r : jsstring) :
  is_high_surrogate c = false -> codePoints (c :: r) = c :: codePoints r.
Proof. intros H. cbn [codePoints]. now rewrite H. Qed.

Lemma codePoints_last (c : N) : codePoints [c] = [c].
Proof. cbn [codePoints]. now destruct (is_high_surrogate c). Qed.

Lemma codePoints_pair (c d : N) (r : jsstring) :
  is_high_surrogate c = true -> is_low_surrogate d = true ->
  codePoints (c :: d :: r) =
  (0x10000 + (c - 0xD800) * 0x400 + (d - 0xDC00))%N :: codePoints r.
Proof. intros Hc Hd. cbn [codePoints]. now rewrite Hc, Hd. Qed.

Lemma codePoints_lone (c d : N) (r : jsstring) :
  is_high_surrogate c = true -> is_low_surrogate d = false ->
  codePoints (c :: d :: r) = c :: codePoints (d :: r).
Proof.
  intros Hc Hd.
  change (codePoints (c :: d :: r)) with
    (if is_high_surrogate c
     then if is_low_surrogate d
          then (0x10000 + (c - 0xD800) * 0x400 + (d - 0xDC00))%N :: codePoints r
          else c :: codePoints (d :: r)
     else c :: codePoints (d :: r)).
  now rewrite Hc, Hd.
Qed.

Lemma units_before_unit (c : N) (r : jsstring) (k : nat) :
  is_high_surrogate c = false ->
  Spec.units_before (c :: r) (S k) = S (Spec.units_before r k).
Proof. intros H. cbn [Spec.units_before]. now rewrite H. Qed.

Lemma units_before_pair (c d : N) (r : jsstring) (k : nat) :
  is_high_surrogate c = true -> is_low_surrogate d = true ->
  Spec.units_before (c :: d :: r) (S k) = S (S (Spec.units_before r k)).
Proof. intros Hc Hd. cbn [Spec.units_before]. now rewrite Hc, Hd. Qed.

Lemma units_before_lone (c d : N) (r : jsstring) (k : nat) :
  is_high_surrogate c = true -> is_low_surrogate d = false ->
  Spec.units_before (c :: d :: r) (S k) = S (Spec.units_before (d :: r) k).
Proof.
  intros Hc Hd.
  change (Spec.units_before (c :: d :: r) (S k)) with
    (if is_high_surrogate c
     then if is_low_surrogate d then 2 + Spec.units_before r k
          else 1 + Spec.units_before (d :: r) k
     else 1 + Spec.units_before (d :: r) k).
  now rewrite Hc, Hd.
Qed.

(** A catalogued character of index [k] is the code unit at
    [units_before s k]. *)
Lemma catalogued_character_unit (s : jsstring) :
  forall k cp,
    nth_error (codePoints s) k = Some cp -> Spec.catalogued cp = true ->
    nth_error s (Spec.units_before s k) = Some cp.
Proof.
  induction s as [|c r Hc IH|c Hc|c d r Hc Hd IH|c d r Hc Hd IH]
    using codePoints_induction; intros k cp Hk Hcp.
  - destruct k; discriminate.
  - rewrite codePoints_unit in Hk by exact Hc. destruct k as [|k].
    + exact Hk.
    + rewrite units_before_unit by exact Hc. now apply IH.
  - rewrite codePoints_last in Hk. destruct k as [|k].
    + exact Hk.
    + destruct k; discriminate.
  - rewrite codePoints_pair in Hk by assumption. destruct k as [|k].
    + injection Hk as <-. rewrite pair_not_catalogued in Hcp by exact Hc.
      discriminate.
    + rewrite units_before_pair by assumption. now apply IH.
  - rewrite codePoints_lone in Hk by assumption. destruct k as [|k].
    + exact Hk.
    + rewrite units_before_lone by assumption. now apply IH.
Qed.

(** When only characters of the Basic Multilingual Plane come before it,
    a character's index is its code-unit offset. *)
Lemma units_before_bmp (s : jsstring) :
  forall k,
    k <= length (codePoints s) ->
    Forall (fun cp => (cp < 0x10000)%N) (firstn k (codePoints s)) ->
    Spec.units_before s k = k.
Proof.
  induction s as [|c r Hc IH|c Hc|c d r Hc Hd IH|c d r Hc Hd IH]
    using codePoints_induction; intros k Hlen Hbmp.
  - destruct k; [reflexivity|]. simpl in Hlen. lia.
  - destruct k as [|k]; [reflexivity|].
    rewrite codePoints_unit in Hlen, Hbmp by exact Hc.
    rewrite units_before_unit by exact Hc.
    cbn [length firstn] in Hlen, Hbmp.
    f_equal. apply IH; [lia|]. now inversion Hbmp.
  - destruct k as [|k]; [reflexivity|].
    rewrite codePoints_last in Hlen. cbn [length] in Hlen.
    assert (k = 0) by lia. subst k.
    cbn [Spec.units_before]. now destruct (is_high_surrogate c).
  - destruct k as [|k]; [reflexivity|].
    rewrite codePoints_pair in Hbmp by assumption. cbn [firstn] in Hbmp.
    inversion Hbmp as [|x l Hx _]; subst. lia.
  - destruct k as [|k]; [reflexivity|].
    rewrite codePoints_lone in Hlen, Hbmp by assumption.
    rewrite units_before_lone by assumption.
    cbn [length firstn] in Hlen, Hbmp.
    f_equal. apply IH; [lia|]. now inversion Hbmp.
Qed.

(* ===================================================================== *)
(** ** Splitting and trimming *)
(* ===================================================================== *)

Lemma split_nonempty (sep : N) (s : jsstring) : split sep s <> [].
Proof.
  intros H. pose proof (split_length sep s) as L. rewrite H in L. discriminate.
Qed.

(** The segments of a split, joined by the separator, are the string. *)
Lemma join_split (sep : N) (s : jsstring) : join [sep] (split sep s) = s.
Proof.
  induction s as [|c r IH]; [reflexivity|].
  cbn [split]. pose proof (split_nonempty sep r) as Hnz.
  destruct (split sep r) as [|seg segs]; [contradiction|].
  destruct (N.eqb_spec c sep) as [->|Hne].
  - change (join [sep] ([] :: seg :: segs))
      with ([] ++ [sep] ++ join [sep] (seg :: segs)).
    now rewrite IH.
  - destruct segs as [|seg' segs].
    + cbn [join] in *. now rewrite IH.
    + change (join [sep] ((c :: seg) :: seg' :: segs))
        with (c :: (seg ++ [sep] ++ join [sep] (seg' :: segs))).
      change (join [sep] (seg :: seg' :: segs))
        with (seg ++ [sep] ++ join [sep] (seg' :: segs)) in IH.
      now rewrite IH.
Qed.

(** No segment of a split contains the separator. *)
Lemma split_no_separator (sep : N) (s : jsstring) :
  Forall (fun seg => ~ In sep seg) (split sep s).
Proof.
  induction s as [|c r IH]; cbn [split].
  - constructor; [intros []|constructor].
  - destruct (N.eqb_spec c sep) as [->|Hne].
    + constructor; [intros []|exact IH].
    + destruct (split sep r) as [|seg segs]; [repeat constructor; intros [H|[]]; congruence|].
      inversion IH as [|x l Hseg Hsegs]; subst. constructor; [|exact Hsegs].
      intros [H|H]; [congruence|contradiction].
Qed.

Lemma trimStart_nil (s : jsstring) :
  trimStart s = [] <-> Spec.has_visible s = false.
Proof.
  unfold Spec.has_visible. induction s as [|c r IH]; cbn [trimStart existsb].
  - tauto.
  - destruct (is_whitespace c); cbn [negb orb]; [exact IH|].
    split; discriminate.
Qed.

Lemma has_visible_rev (s : jsstring) :
  Spec.has_visible (rev s) = Spec.has_visible s.
Proof.
  unfold Spec.has_visible. apply eq_true_iff_eq.
  rewrite !existsb_exists. split; intros [c [Hin Hc]]; exists c; split; auto;
    now apply in_rev in Hin.
Qed.

Lemma has_visible_trimStart (s : jsstring) :
  Spec.has_visible (trimStart s) = Spec.has_visible s.
Proof.
  unfold Spec.has_visible. induction s as [|c r IH]; cbn [trimStart existsb];
    [reflexivity|].
  destruct (is_whitespace c) eqn:Hc; cbn [negb orb]; [exact IH|].
  cbn [existsb]. now rewrite Hc.
Qed.

(** The test of [getGitFiles]: the trimmed segment is not empty exactly
    when the segment has a character that is not white space. *)
Lemma trim_visible (f : jsstring) :
  (0 <? length (trim f)) = Spec.has_visible f.
Proof.
  unfold trim, trimEnd. rewrite length_rev.
  destruct (Spec.has_visible f) eqn:Hv.
  - apply Nat.ltb_lt.
    destruct (trimStart (rev (trimStart f))) as [|x l] eqn:E; [|simpl; lia].
    apply trimStart_nil in E.
    rewrite has_visible_rev, has_visible_trimStart in E. congruence.
  - assert (E : trimStart (rev (trimStart f)) = []).
    { apply trimStart_nil. now rewrite has_visible_rev, has_visible_trimStart. }
    now rewrite E.
Qed.

Lemma getGitFiles_listing (w : World) (output : jsstring) :
  git_ls_files w = Some output ->
  getGitFiles w = Return (filter Spec.has_visible (split 0x0A output)).
Proof.
  intros H. unfold getGitFiles. rewrite H. f_equal.
  apply filter_ext. intros f. apply trim_visible.
Qed.

(* ===================================================================== *)
(** ** The keys of an object *)
(* ===================================================================== *)

Lemma insert_index_In (V : Type) (n : N) (p : jsstring * V)
  (l : list (N * (jsstring * V))) (x : N * (jsstring * V)) :
  In x (Obj.insert_index n p l) <-> x = (n, p) \/ In x l.
Proof.
  induction l as [|[m q] l IH]; cbn [Obj.insert_index In].
  - intuition.
  - destruct (n <=? m)%N; cbn [In]; rewrite ?IH; intuition.
Qed.

Lemma index_props_In (V : Type) (o : Obj.t V) (n : N) (p : jsstring * V) :
  In (n, p) (Obj.index_props o) <-> In p o /\ Obj.array_index (fst p) = Some n.
Proof.
  induction o as [|[k v] o IH]; cbn [Obj.index_props In].
  - tauto.
  - destruct (Obj.array_index k) as [m|] eqn:Hk.
    + rewrite insert_index_In, IH. split.
      * intros [H|[H1 H2]]; [|auto].
        injection H as -> ->. cbn [fst]. auto.
      * intros [[<-|H] H2]; [|auto].
        left. cbn [fst] in H2. congruence.
    + rewrite IH. split; [tauto|].
      intros [[<-|H] H2]; [cbn [fst] in H2; congruence|auto].
Qed.

(** [Object.entries] reorders the own properties and loses none. *)
Lemma entries_In (V : Type) (o : Obj.t V) (p : jsstring * V) :
  In p (Obj.entries o) <-> In p o.
Proof.
  unfold Obj.entries. rewrite in_app_iff, in_map_iff, filter_In. split.
  - intros [[[n q] [<- H]]|[H _]]; [|exact H].
    now apply index_props_In in H.
  - intros H. unfold Obj.is_index_key.
    destruct (Obj.array_index (fst p)) as [n|] eqn:E; [left|right; auto].
    exists (n, p). split; [reflexivity|]. now apply index_props_In.
Qed.

Lemma keys_In (V : Type) (o : Obj.t V) (k : jsstring) :
  In k (Obj.keys o) <-> In k (map fst o).
Proof.
  unfold Obj.keys. rewrite !in_map_iff.
  split; intros [p [Hk Hp]]; exists p; split; auto; now apply entries_In.
Qed.

Lemma put_In (V : Type) (k k' : jsstring) (v : V) (o : Obj.t V) :
  In k (map fst (Obj.put k' v o)) <-> k = k' \/ In k (map fst o).
Proof.
  induction o as [|[k0 v0] o IH]; cbn [Obj.put map fst In].
  - intuition.
  - destruct (JS.eqb k' k0) eqn:E; cbn [map fst In].
    + apply eqb_eq in E. subst. intuition.
    + rewrite IH. intuition.
Qed.

(** Assigning to a key makes it an own key, unless the key is
    [__proto__]. *)
Lemma assign_keys (V : Type) (k k' : jsstring) (v : V) (o : Obj.t V) :
  In k (Obj.keys (Obj.assign k' v o)) <->
  (k = k' /\ k' <> Obj.proto_key) \/ In k (Obj.keys o).
Proof.
  rewrite !keys_In. unfold Obj.assign.
  destruct (JS.eqb k' Obj.proto_key) eqn:E.
  - apply eqb_eq in E. intuition.
  - apply eqb_neq in E. rewrite put_In. intuition.
Qed.

(* ===================================================================== *)
(** ** The loop over the files *)
(* ===================================================================== *)

Lemma pattern_at_0 : pattern_at 0 = unsafePattern.
Proof. reflexivity. Qed.

Lemma collect_cons (d : Disk) (file : jsstring) (rest : list jsstring)
  (results : Obj.t (list Finding)) :
  collect d (file :: rest) results =
  collect d rest
    (if 0 <? length (findings_in d file)
     then Obj.assign file (findings_in d file) results
     else results).
Proof. reflexivity. Qed.

Lemma total_findings_cons (d : Disk) (file : jsstring) (rest : list jsstring) :
  Spec.total_findings d (file :: rest) =
  length (findings_in d file) + Spec.total_findings d rest.
Proof. reflexivity. Qed.

(** The loop always ends; it builds [collect] and adds up the finding
    counts, whatever state the pattern starts in. *)
Lemma scan_files_collect (d : Disk) (files : list jsstring) :
  forall (i : nat) (results : Obj.t (list Finding)) (totalFindings : nat)
         (scanned : list jsstring),
  exists i',
    scan_files d files (pattern_at i) results totalFindings scanned =
    Some (collect d files results,
          totalFindings + Spec.total_findings d files,
          pattern_at i',
          scanned ++ files).
Proof.
  induction files as [|file rest IH]; intros i results totalFindings scanned.
  - exists i. cbn. now rewrite Nat.add_0_r, app_nil_r.
  - cbn [scan_files]. rewrite collect_cons, total_findings_cons.
    destruct (scanFile_total d i file) as [re' [Hscan Hre]]. rewrite Hscan.
    assert (Hi : exists j, re' = pattern_at j).
    { destruct Hre as [->| ->]; [exists 0|exists i]; reflexivity. }
    destruct Hi as [j ->].
    replace (scanned ++ file :: rest) with ((scanned ++ [file]) ++ rest)
      by (now rewrite <- app_assoc).
    destruct (0 <? length (findings_in d file)) eqn:Hlen.
    + destruct (IH j (Obj.assign file (findings_in d file) results)
                  (totalFindings + length (findings_in d file))
                  (scanned ++ [file])) as [i' Hrest].
      exists i'. rewrite Hrest. now rewrite Nat.add_assoc.
    + destruct (IH j results totalFindings (scanned ++ [file])) as [i' Hrest].
      exists i'. rewrite Hrest. apply Nat.ltb_ge in Hlen.
      assert (Hz : length (findings_in d file) = 0) by lia.
      now rewrite Hz.
Qed.

(** The keys of the report: the keys it started with, and every file with
    a finding whose path is not [__proto__]. *)
Lemma collect_keys (d : Disk) (files : list jsstring) :
  forall (results : Obj.t (list Finding)) (k : jsstring),
    In k (Obj.keys (collect d files results)) <->
    In k (Obj.keys results)
    \/ (In k files /\ findings_in d k <> [] /\ k <> Obj.proto_key).
Proof.
  induction files as [|file rest IH]; intros results k.
  - cbn. tauto.
  - rewrite collect_cons, IH.
    destruct (0 <? length (findings_in d file)) eqn:Hlen.
    + apply Nat.ltb_lt in Hlen.
      assert (Hne : findings_in d file <> [])
        by (intros E; rewrite E in Hlen; inversion Hlen).
      rewrite assign_keys. cbn [In]. split.
      * intros [[[-> Hp]|H]|H]; auto. tauto.
      * intros [H|[[<-|H] [H1 H2]]]; auto.
    + apply Nat.ltb_ge in Hlen.
      assert (He : findings_in d file = [])
        by (destruct (findings_in d file); [reflexivity|simpl in Hlen; lia]).
      cbn [In]. split.
      * intros [H|H]; tauto.
      * intros [H|[[<-|H] [H1 H2]]]; auto. contradiction.
Qed.

Lemma collect_nothing (d : Disk) (files : list jsstring)
  (results : Obj.t (list Finding)) :
  Spec.total_findings d files = 0 -> collect d files results = results.
Proof.
  revert results; induction files as [|file rest IH]; intros results Hz;
    [reflexivity|].
  rewrite total_findings_cons in Hz. rewrite collect_cons.
  assert (Hf : length (findings_in d file) = 0) by lia.
  rewrite Hf. cbn. apply IH. lia.
Qed.

(** A run that got its file list: it scans the listed files in order,
    then writes the report and exits by the total, or is ended by the
    write that throws. *)
Lemma main_run (w : World) (files : list jsstring) :
  getGitFiles w = Return files ->
  main w =
  Some (if writable w jsonPath
        then mkRun files
               [(jsonPath,
                 Utf8.encode
                   (JSON.stringify (results_json (collect (disk w) files Obj.empty))))]
               (if 0 <? Spec.total_findings (disk w) files then 1%N else 0%N)
        else mkRun files [] 1%N).
Proof.
  intros Hfiles. unfold main. rewrite Hfiles.
  destruct (scan_files_collect (disk w) files 0 Obj.empty 0 []) as [i' Hscan].
  rewrite pattern_at_0 in Hscan. rewrite Hscan. unfold writeFileSync.
  now destruct (writable w jsonPath).
Qed.

(** A run that got its file list and can write its report. *)
Lemma main_listed (w : World) (files : list jsstring) :
  getGitFiles w = Return files ->
  writable w jsonPath = true ->
  main w =
  Some (mkRun files
          [(jsonPath,
            Utf8.encode (JSON.stringify (results_json (collect (disk w) files Obj.empty))))]
          (if 0 <? Spec.total_findings (disk w) files then 1%N else 0%N)).
Proof.
  intros Hfiles Hw. now rewrite (main_run _ Hfiles), Hw.
Qed.

(** A run that got its file list and cannot write its report. *)
Lemma main_unwritable (w : World) (files : list jsstring) :
  getGitFiles w = Return files ->
  writable w jsonPath = false ->
  main w = Some (mkRun files [] 1%N).
Proof.
  intros Hfiles Hw. now rewrite (main_run _ Hfiles), Hw.
Qed.

(** A run whose listing failed. *)
Lemma main_unlisted (w : World) :
  git_ls_files w = None -> main w = Some (mkRun [] [] 1%N).
Proof. intros H. unfold main, getGitFiles. now rewrite H. Qed.

Lemma main_total (w : World) : exists r, main w = Some r.
Proof.
  destruct (git_ls_files w) as [output|] eqn:Hg.
  - rewrite (main_run _ (getGitFiles_listing _ Hg)). now eexists.
  - rewrite (main_unlisted _ Hg). now eexists.
Qed.

(** The keys of the report of a run: the listed files that have a finding
    and are not called [__proto__]. *)
Lemma report_keys (d : Disk) (files : list jsstring) (k : jsstring) :
  In k (Obj.keys (collect d files Obj.empty)) <->
  In k files /\ findings_in d k <> [] /\ k <> Obj.proto_key.
Proof.
  rewrite collect_keys. cbn. tauto.
Qed.

(* ===================================================================== *)
(** ** Dependence on the files *)
(* ===================================================================== *)

Lemma findings_in_content (d1 d2 : Disk) (p1 p2 : jsstring) :
  readFileSync d1 p1 = readFileSync d2 p2 ->
  findings_in d1 p1 = findings_in d2 p2.
Proof.
  intros H. unfold findings_in, scanFile. now rewrite H.
Qed.

Lemma findings_in_ext (d1 d2 : Disk) (p : jsstring) :
  d1 p = d2 p -> findings_in d1 p = findings_in d2 p.
Proof.
  intros H. apply findings_in_content. unfold readFileSync. now rewrite H.
Qed.

Lemma collect_ext (d1 d2 : Disk) (files : list jsstring) :
  (forall p, In p files -> d1 p = d2 p) ->
  forall results, collect d1 files results = collect d2 files results.
Proof.
  induction files as [|file rest IH]; intros Hagree results; [reflexivity|].
  rewrite !collect_cons.
  rewrite (@findings_in_ext d1 d2 file) by (apply Hagree; now left).
  apply IH. intros p Hp. apply Hagree. now right.
Qed.

Lemma total_findings_ext (d1 d2 : Disk) (files : list jsstring) :
  (forall p, In p files -> d1 p = d2 p) ->
  Spec.total_findings d1 files = Spec.total_findings d2 files.
Proof.
  induction files as [|file rest IH]; intros Hagree; [reflexivity|].
  rewrite !total_findings_cons.
  rewrite (@findings_in_ext d1 d2 file) by (apply Hagree; now left).
  f_equal. apply IH. intros p Hp. apply Hagree. now right.
Qed.

(** Two worlds with the same listing, the same contents of the listed
    files and the same answer to whether the report can be written give
    the same run. *)
Lemma main_ext (w1 w2 : World) (files : list jsstring) :
  getGitFiles w1 = Return files ->
  git_ls_files w2 = git_ls_files w1 ->
  (forall p, In p files -> disk w2 p = disk w1 p) ->
  writable w2 jsonPath = writable w1 jsonPath ->
  main w2 = main w1.
Proof.
  intros Hfiles Hgit Hagree Hwrite.
  assert (Hfiles2 : getGitFiles w2 = Return files)
    by (unfold getGitFiles in *; now rewrite Hgit).
  rewrite (main_run _ Hfiles), (main_run _ Hfiles2), Hwrite.
  now rewrite (collect_ext _ _ _ Hagree), (total_findings_ext _ _ _ Hagree).
Qed.

(** The files a run leaves behind differ from the ones it found at the
    report path only. *)
Lemma disk_after_other (w : World) (r : Run) (p : jsstring) :
  main w = Some r -> p <> jsonPath -> disk_after (disk w) r p = disk w p.
Proof.
  intros Hmain Hp. destruct (git_ls_files w) as [output|] eqn:Hg.
  - rewrite (main_run _ (getGitFiles_listing _ Hg)) in Hmain.
    injection Hmain as <-. unfold disk_after.
    destruct (writable w jsonPath); cbn [written fold_left fst snd];
      [|reflexivity].
    apply eqb_neq in Hp. now rewrite Hp.
  - rewrite (main_unlisted _ Hg) in Hmain. now injection Hmain as <-.
Qed.

(** Every finding of a file comes from a catalogued code unit of its
    text, at the finding's position. *)
Lemma findings_in_sound (d : Disk) (filePath : jsstring) (f : Finding) :
  In f (findings_in d filePath) ->
  exists content c,
    readFileSync d filePath = Some content
    /\ nth_error content (position f) = Some c
    /\ Spec.catalogued c = true
    /\ f = finding_of content (mkMatch [c] (position f)).
Proof.
  intros Hin. destruct (readFileSync d filePath) as [content|] eqn:Hr.
  - rewrite (findings_in_readable _ _ Hr) in Hin.
    destruct (@findings_from_In content content f 0 eq_refl Hin)
      as [c [Hc [Hcat Hf]]].
    exists content, c. auto.
  - rewrite findings_in_unreadable in Hin by exact Hr. contradiction.
Qed.

(* ===================================================================== *)
(** ** The scenarios of the specification *)
(* ===================================================================== *)

(** U+202E followed by [desc.txt]: one finding at offset 0 of line 1, and
    the run exits with 1. *)
Example scenario_rlo :
  findings_in Sample.tree (lit "desc.txt") =
  [mkFinding [0x202E%N] (lit "U+202E")
     (Some (lit "RLO (Right-to-Left Override)")) 0 1]
  /\ option_map exit_code (main (Sample.world [lit "desc.txt"])) = Some 1%N.
Proof. split; reflexivity. Qed.

(** U+200B at the third character of the second of three lines: line 2,
    offset = length of line 1 + 1 + 2. *)
Example scenario_zwsp :
  findings_in Sample.tree (lit "lines.txt") =
  [mkFinding [0x200B%N] (lit "U+200B")
     (Some (lit "ZWSP (Zero Width Space)")) (2 + 1 + 2) 2].
Proof. reflexivity. Qed.

(** Clean files only: the report is the empty object and the run exits
    with 0. *)
Example scenario_clean :
  main (Sample.world [lit "clean.txt"]) =
  Some (mkRun [lit "clean.txt"] [(jsonPath, [Byte.x7b; Byte.x7d])] 0%N).
Proof. reflexivity. Qed.

(** A byte-order mark at the start of a file is kept by the read and
    reported at offset 0 of line 1. *)
Example scenario_bom :
  findings_in Sample.tree (lit "bom.txt") =
  [mkFinding [0xFEFF%N] (lit "U+FEFF")
     (Some (lit "BOM/ZWNBSP (Zero Width No-Break Space)")) 0 1].
Proof. reflexivity. Qed.

(** A checkout without the directory of the report: the files are
    scanned, the write throws, no report is left and only the banner was
    printed. *)
Example scenario_no_reports_directory :
  main (Sample.world_without_reports [lit "desc.txt"; lit "clean.txt"]) =
  Some (mkRun [lit "desc.txt"; lit "clean.txt"] [] 1%N)
  /\ Console.stdout (Sample.world_without_reports [lit "desc.txt"; lit "clean.txt"]) =
     Some (Console.Threw [Console.banner]).
Proof. split; reflexivity. Qed.

(** A path that cannot be read has no finding and does not stop the run. *)
Example scenario_unreadable :
  main (Sample.world [lit "gone.txt"; lit "clean.txt"]) =
  Some (mkRun [lit "gone.txt"; lit "clean.txt"]
          [(jsonPath, [Byte.x7b; Byte.x7d])] 0%N).
Proof. reflexivity. Qed.

(* ===================================================================== *)
(** ** The claims *)
(* ===================================================================== *)

(** C1.  A run that obtained its file list has scanned the listed files.
    When it completes, that is when it wrote its report and so reached
    line 133, it ends with exit status 0 when the finding counts of the
    scanned files add up to 0, and with exit status 1 otherwise.  A run the
    [writeFileSync] of line 104 ended is not a completed run; its exit
    status is 1 whatever the counts are. *)
Theorem exit_status_reflects_total (w : World) (files : list jsstring) :
  getGitFiles w = Return files ->
  exists r,
    main w = Some r
    /\ scanned r = files
    /\ (writable w jsonPath = true ->
        (exit_code r = 0%N <-> Spec.total_findings (disk w) (scanned r) = 0))
    /\ (Spec.total_findings (disk w) (scanned r) <> 0 -> exit_code r = 1%N)
    /\ (writable w jsonPath = false -> exit_code r = 1%N).
Proof.
  intros Hfiles. rewrite (main_run _ Hfiles). eexists.
  split; [reflexivity|].
  destruct (writable w jsonPath); cbn [exit_code scanned];
    (split; [reflexivity|]).
  - destruct (Spec.total_findings (disk w) files) as [|n]; cbn.
    + split; [tauto|]. split; [|discriminate]. intros H. now contradiction H.
    + split; [|split; [reflexivity|discriminate]]. intros _. split; discriminate.
  - split; [discriminate|]. split; reflexivity.
Qed.

Lemma exit_status_reflects_total_witness :
  exists r,
    main (Sample.world [lit "desc.txt"; lit "clean.txt"]) = Some r
    /\ scanned r = [lit "desc.txt"; lit "clean.txt"]
    /\ (writable (Sample.world [lit "desc.txt"; lit "clean.txt"]) jsonPath = true ->
        (exit_code r = 0%N <-> Spec.total_findings Sample.tree (scanned r) = 0))
    /\ (Spec.total_findings Sample.tree (scanned r) <> 0 -> exit_code r = 1%N)
    /\ (writable (Sample.world [lit "desc.txt"; lit "clean.txt"]) jsonPath = false ->
        exit_code r = 1%N).
Proof.
  apply (@exit_status_reflects_total
           (Sample.world [lit "desc.txt"; lit "clean.txt"])
           [lit "desc.txt"; lit "clean.txt"]); reflexivity.
Defined.

(** C2.  Scanning a file that can be read reports each position holding a
    catalogued code unit exactly once and no other position, and the
    offsets of the findings, in the order returned, increase strictly. *)
Theorem scanFile_reports_each_occurrence_once
  (d : Disk) (i : nat) (filePath content : jsstring) :
  readFileSync d filePath = Some content ->
  exists findings re',
    scanFile d (pattern_at i) filePath = Some (findings, re')
    /\ map position findings = Spec.occurrences content
    /\ (forall j, count_occ Nat.eq_dec (map position findings) j =
                  if Spec.catalogued_at content j then 1 else 0)
    /\ (forall f, In f findings ->
                  nth_error content (position f) = nth_error (char f) 0
                  /\ length (char f) = 1)
    /\ StronglySorted lt (map position findings).
Proof.
  intros Hr. exists (findings_from content 0 content), unsafePattern.
  assert (Hpos : map position (findings_from content 0 content) =
                 Spec.occurrences content)
    by (now apply positions_from).
  split; [now apply scanFile_readable|]. split; [exact Hpos|].
  rewrite Hpos. split; [apply count_occ_occurrences|]. split.
  - intros f Hin.
    destruct (@findings_from_In content content f 0 eq_refl Hin)
      as [c [Hc [_ Hf]]].
    rewrite Hf at 2 3. cbn. auto.
  - apply filter_strictly_sorted, seq_strictly_sorted.
Qed.

Lemma scanFile_reports_each_occurrence_once_witness :
  exists findings re',
    scanFile Sample.tree (pattern_at 3) (lit "astral.txt") = Some (findings, re')
    /\ map position findings = Spec.occurrences Sample.astral_text
    /\ (forall j, count_occ Nat.eq_dec (map position findings) j =
                  if Spec.catalogued_at Sample.astral_text j then 1 else 0)
    /\ (forall f, In f findings ->
                  nth_error Sample.astral_text (position f) = nth_error (char f) 0
                  /\ length (char f) = 1)
    /\ StronglySorted lt (map position findings).
Proof.
  apply (@scanFile_reports_each_occurrence_once
           Sample.tree 3 (lit "astral.txt") Sample.astral_text).
  reflexivity.
Defined.

(** C3.  The line of every finding of a readable file is 1 plus the number
    of line feeds of the text strictly before the finding's offset. *)
Theorem finding_line_counts_newlines
  (d : Disk) (i : nat) (filePath content : jsstring) :
  readFileSync d filePath = Some content ->
  exists findings re',
    scanFile d (pattern_at i) filePath = Some (findings, re')
    /\ forall f, In f findings ->
         line f = 1 + Spec.newlines_before content (position f).
Proof.
  intros Hr. exists (findings_from content 0 content), unsafePattern.
  split; [now apply scanFile_readable|]. intros f Hin.
  destruct (@findings_from_In content content f 0 eq_refl Hin)
    as [c [_ [_ Hf]]].
  rewrite Hf at 1. cbn [line finding_of index].
  unfold substring0, Spec.newlines_before. now rewrite split_length.
Qed.

Lemma finding_line_counts_newlines_witness :
  exists findings re',
    scanFile Sample.tree (pattern_at 0) (lit "lines.txt") = Some (findings, re')
    /\ forall f, In f findings ->
         line f = 1 + Spec.newlines_before Sample.zwsp_text (position f).
Proof.
  apply (@finding_line_counts_newlines
           Sample.tree 0 (lit "lines.txt") Sample.zwsp_text).
  reflexivity.
Defined.

(** C4.  A tracked file [__proto__] that holds U+202E has one finding, yet
    the report of the run has no key for it: the assignment
    [results[file] = findings] of line 97 reaches the [__proto__] accessor
    and creates no property.  The exit status still counts the finding. *)
Theorem proto_path_missing_from_report :
  getGitFiles (Sample.world [lit "__proto__"]) = Return [lit "__proto__"]
  /\ map position (findings_in Sample.tree (lit "__proto__")) = [0]
  /\ scan_files Sample.tree [lit "__proto__"] unsafePattern Obj.empty 0 [] =
     Some (Obj.empty, 1, unsafePattern, [lit "__proto__"])
  /\ ~ In (lit "__proto__") (Obj.keys (collect Sample.tree [lit "__proto__"] Obj.empty))
  /\ main (Sample.world [lit "__proto__"]) =
     Some (mkRun [lit "__proto__"] [(jsonPath, [Byte.x7b; Byte.x7d])] 1%N).
Proof.
  repeat split; try reflexivity. intros H. exact H.
Qed.

(** C5, as the specification states it, fails: after a character outside
    the Basic Multilingual Plane the offset is not the character index. *)
Lemma offset_is_not_character_index : ~ Spec.offset_is_character_index.
Proof.
  intros H.
  destruct (H Sample.tree (lit "astral.txt") Sample.astral_text 1 0x202E%N
              eq_refl eq_refl eq_refl) as [f [Hin Hpos]].
  rewrite (@findings_in_readable Sample.tree (lit "astral.txt")
             Sample.astral_text eq_refl) in Hin.
  cbn in Hin. destruct Hin as [<-|[]]. discriminate Hpos.
Qed.

(** C5, amended.  Every catalogued character of a readable file has a
    finding whose offset is the number of UTF-16 code units before the
    character: a character outside the Basic Multilingual Plane counts for
    two.  The offset is the character index when only characters of the
    Basic Multilingual Plane come before. *)
Theorem finding_offset_counts_code_units
  (d : Disk) (filePath content : jsstring) (k : nat) (cp : N) :
  readFileSync d filePath = Some content ->
  nth_error (codePoints content) k = Some cp ->
  Spec.catalogued cp = true ->
  exists f,
    In f (findings_in d filePath)
    /\ char f = [cp]
    /\ position f = Spec.units_before content k
    /\ (Forall (fun x => (x < 0x10000)%N) (firstn k (codePoints content)) ->
        position f = k).
Proof.
  intros Hr Hk Hcp.
  pose proof (catalogued_character_unit _ _ Hk Hcp) as Hunit.
  exists (finding_of content (mkMatch [cp] (Spec.units_before content k))).
  rewrite (findings_in_readable _ _ Hr). split.
  - apply findings_from_complete; auto. lia.
  - split; [reflexivity|]. split; [reflexivity|].
    intros Hbmp. cbn [position finding_of index].
    apply units_before_bmp; [|exact Hbmp].
    assert (k < length (codePoints content))
      by (apply nth_error_Some; congruence).
    lia.
Qed.

Lemma finding_offset_counts_code_units_witness :
  exists f,
    In f (findings_in Sample.tree (lit "astral.txt"))
    /\ char f = [0x202E%N]
    /\ position f = Spec.units_before Sample.astral_text 1
    /\ (Forall (fun x => (x < 0x10000)%N)
               (firstn 1 (codePoints Sample.astral_text)) ->
        position f = 1).
Proof.
  apply (@finding_offset_counts_code_units
           Sample.tree (lit "astral.txt") Sample.astral_text 1 0x202E%N);
    reflexivity.
Defined.

(** C6.  A tracked file whose bytes are not UTF-8 is read without an
    exception, with U+FFFD in place of the bytes that do not decode; the
    [catch] of lines 80-83 is not reached and the file is scanned like any
    text.  Here it contributes one finding and the run exits with 1. *)
Theorem binary_file_is_scanned :
  Utf8.wellformed Sample.binary_file = false
  /\ readFileSync Sample.tree (lit "blob.bin") = Some [0xFFFD%N; 0x202E%N]
  /\ map position (findings_in Sample.tree (lit "blob.bin")) = [1]
  /\ main (Sample.world [lit "blob.bin"]) =
     Some (mkRun [lit "blob.bin"]
             [(jsonPath,
               Utf8.encode
                 (JSON.stringify
                    (results_json
                       [(lit "blob.bin",
                         [mkFinding [0x202E%N] (lit "U+202E")
                            (Some (lit "RLO (Right-to-Left Override)")) 1 1])])))]
             1%N).
Proof.
  repeat split; reflexivity.
Qed.

(** C7.  The findings of a scan are a function of the decoded content
    alone: two scans of equal contents return the same findings whatever
    state earlier scans left the pattern in.  A scan started with the
    pattern at rest leaves it at rest, and it writes nothing.  Two worlds
    with the same listing and the same contents of the listed files, in
    both of which the report can be written or in neither, give the same
    run, report bytes included; so does a second run after the first when
    the first left the listed files as they were.  Whatever can be written,
    two such worlds have the same files scanned, and when both runs write
    a report the two reports are the same bytes and the exit statuses are
    equal. *)
Theorem scan_is_deterministic :
  (forall (d1 d2 : Disk) (i1 i2 : nat) (p1 p2 : jsstring),
      readFileSync d1 p1 = readFileSync d2 p2 ->
      exists findings re1 re2,
        scanFile d1 (pattern_at i1) p1 = Some (findings, re1)
        /\ scanFile d2 (pattern_at i2) p2 = Some (findings, re2))
  /\ (forall (d : Disk) (p : jsstring),
         scanFile d unsafePattern p = Some (findings_in d p, unsafePattern))
  /\ (forall (w1 w2 : World) (files : list jsstring),
         getGitFiles w1 = Return files ->
         git_ls_files w2 = git_ls_files w1 ->
         (forall p, In p files -> disk w2 p = disk w1 p) ->
         writable w2 jsonPath = writable w1 jsonPath ->
         main w2 = main w1)
  /\ (forall (w : World) (files : list jsstring) (r : Run),
         getGitFiles w = Return files ->
         main w = Some r ->
         (forall p, In p files -> disk_after (disk w) r p = disk w p) ->
         main (world_after w r) = Some r)
  /\ (forall (w1 w2 : World) (files : list jsstring) (r1 r2 : Run),
         getGitFiles w1 = Return files ->
         git_ls_files w2 = git_ls_files w1 ->
         (forall p, In p files -> disk w2 p = disk w1 p) ->
         main w1 = Some r1 ->
         main w2 = Some r2 ->
         scanned r2 = scanned r1
         /\ (written r1 <> [] -> written r2 <> [] ->
             written r2 = written r1 /\ exit_code r2 = exit_code r1)).
Proof.
  split; [|split; [|split; [|split]]].
  - intros d1 d2 i1 i2 p1 p2 Hsame.
    destruct (scanFile_total d1 i1 p1) as [re1 [H1 _]].
    destruct (scanFile_total d2 i2 p2) as [re2 [H2 _]].
    exists (findings_in d1 p1), re1, re2. split; [exact H1|].
    now rewrite (findings_in_content _ _ _ _ Hsame).
  - intros d p. destruct (scanFile_total d 0 p) as [re' [Hscan Hre]].
    rewrite pattern_at_0 in *. rewrite Hscan. now destruct Hre as [->| ->].
  - intros w1 w2 files. apply main_ext.
  - intros w files r Hfiles Hmain Hkept. rewrite <- Hmain.
    now apply main_ext with (files := files).
  - intros w1 w2 files r1 r2 Hfiles Hgit Hagree Hmain1 Hmain2.
    assert (Hfiles2 : getGitFiles w2 = Return files)
      by (unfold getGitFiles in *; now rewrite Hgit).
    rewrite (main_run _ Hfiles) in Hmain1.
    rewrite (main_run _ Hfiles2) in Hmain2.
    injection Hmain1 as <-. injection Hmain2 as <-.
    rewrite (collect_ext _ _ _ Hagree), (total_findings_ext _ _ _ Hagree).
    destruct (writable w1 jsonPath), (writable w2 jsonPath);
      cbn [scanned written exit_code]; (split; [reflexivity|]);
      intros H1 H2; try (now contradiction H1); try (now contradiction H2).
    split; reflexivity.
Qed.

Lemma scan_is_deterministic_witness :
  (exists findings re1 re2,
      scanFile Sample.tree (pattern_at 0) (lit "desc.txt") = Some (findings, re1)
      /\ scanFile Sample.tree (pattern_at 7) (lit "__proto__") = Some (findings, re2))
  /\ main (mkWorld (git_ls_files (Sample.world Sample.two_files))
                   (fun p => if JS.eqb p (lit "blob.bin") then None else Sample.tree p)
                   (fun p => JS.eqb p jsonPath))
     = main (Sample.world Sample.two_files)
  /\ main (world_after (Sample.world Sample.two_files) Sample.first_run)
     = Some Sample.first_run.
Proof.
  destruct scan_is_deterministic as [Hscan [_ [Hext [Hagain _]]]].
  split; [|split].
  - apply (Hscan Sample.tree Sample.tree 0 7 (lit "desc.txt") (lit "__proto__")).
    reflexivity.
  - apply (Hext (Sample.world Sample.two_files) _ Sample.two_files);
      try reflexivity.
    intros p [<-|[<-|[]]]; reflexivity.
  - apply (Hagain (Sample.world Sample.two_files) Sample.two_files);
      try reflexivity.
    intros p [<-|[<-|[]]]; reflexivity.
Defined.

(** C8, as the specification states it, fails: in a checkout without the
    directory [docs/ops/reports] the [writeFileSync] of line 104 throws,
    and a run that obtained its listing leaves no report. *)
Lemma report_not_always_written : ~ Spec.report_always_written.
Proof.
  intros H.
  destruct (H (Sample.world_without_reports [lit "clean.txt"]) [lit "clean.txt"]
              eq_refl) as [r [bytes [Hmain [Hwritten _]]]].
  assert (Hrun : main (Sample.world_without_reports [lit "clean.txt"]) =
                 Some (mkRun [lit "clean.txt"] [] 1%N)) by reflexivity.
  rewrite Hrun in Hmain. injection Hmain as <-. discriminate Hwritten.
Qed.

(** C8, amended.  A run that obtained its file list scans the listed
    files and then writes the report once, at the fixed path, provided that
    path can be written; when no file has a finding the bytes written are
    the serialization of the empty object, [{}].  When the path cannot be
    written the run leaves no report and ends with exit status 1. *)
Theorem report_written_once (w : World) (files : list jsstring) :
  getGitFiles w = Return files ->
  exists r,
    main w = Some r
    /\ scanned r = files
    /\ (writable w jsonPath = true ->
        exists bytes,
          written r = [(jsonPath, bytes)]
          /\ jsonPath = lit "docs/ops/reports/_tmp_bidi_scan.json"
          /\ (Spec.total_findings (disk w) files = 0 ->
              bytes = Utf8.encode (JSON.stringify (JSON.Object []))
              /\ bytes = [Byte.x7b; Byte.x7d]))
    /\ (writable w jsonPath = false -> written r = [] /\ exit_code r = 1%N).
Proof.
  intros Hfiles. rewrite (main_run _ Hfiles). eexists.
  split; [reflexivity|].
  destruct (writable w jsonPath); cbn [scanned written exit_code].
  - split; [reflexivity|]. split; [|discriminate]. intros _. eexists.
    split; [reflexivity|]. split; [reflexivity|].
    intros Hz. rewrite (collect_nothing _ _ _ Hz). split; reflexivity.
  - split; [reflexivity|]. split; [discriminate|]. intros _. split; reflexivity.
Qed.

Lemma report_written_once_witness :
  exists r,
    main (Sample.world [lit "clean.txt"]) = Some r
    /\ scanned r = [lit "clean.txt"]
    /\ (writable (Sample.world [lit "clean.txt"]) jsonPath = true ->
        exists bytes,
          written r = [(jsonPath, bytes)]
          /\ jsonPath = lit "docs/ops/reports/_tmp_bidi_scan.json"
          /\ (Spec.total_findings Sample.tree [lit "clean.txt"] = 0 ->
              bytes = Utf8.encode (JSON.stringify (JSON.Object []))
              /\ bytes = [Byte.x7b; Byte.x7d]))
    /\ (writable (Sample.world [lit "clean.txt"]) jsonPath = false ->
        written r = [] /\ exit_code r = 1%N).
Proof.
  apply (@report_written_once (Sample.world [lit "clean.txt"]) [lit "clean.txt"]).
  reflexivity.
Defined.

Lemma get_catalogue (rows : list (N * string)) (c : N) :
  Obj.get [c] (map (fun row => ([fst row], lit (snd row))) rows) =
  Spec.name_in rows c.
Proof.
  induction rows as [|[k nm] rows IH]; [reflexivity|].
  cbn [map Obj.get Spec.name_in fst snd JS.eqb]. rewrite andb_true_r.
  now destruct (c =? k)%N.
Qed.

(** C9.  The catalogue of the source is the table of the specification,
    row by row: the fifteen codepoints with their names, no codepoint
    twice.  The catalogue is a constant: nothing the script does takes or
    returns it, and the pattern built from its keys keeps its alternatives
    through every scan. *)
Theorem catalogue_exact :
  UNSAFE_CHARS = map (fun row => ([fst row], lit (snd row))) Spec.catalogue
  /\ map fst Spec.catalogue =
     [0x202A; 0x202B; 0x202C; 0x202D; 0x202E; 0x2066; 0x2067; 0x2068; 0x2069;
      0x200B; 0x200C; 0x200D; 0x200E; 0x200F; 0xFEFF]%N
  /\ length UNSAFE_CHARS = 15
  /\ NoDup (map fst UNSAFE_CHARS)
  /\ Obj.get [0x202E%N] UNSAFE_CHARS = Some (lit "RLO (Right-to-Left Override)")
  /\ (forall c, Obj.get [c] UNSAFE_CHARS = Spec.name_of c)
  /\ (forall c, Spec.catalogued c = true <-> Spec.name_of c <> None)
  /\ (forall (d : Disk) (i : nat) (p : jsstring),
         exists findings re',
           scanFile d (pattern_at i) p = Some (findings, re')
           /\ alternatives re' = Obj.keys UNSAFE_CHARS).
Proof.
  split; [reflexivity|]. split; [reflexivity|]. split; [reflexivity|].
  split; [|split; [reflexivity|split; [|split]]].
  - cbn. repeat (constructor; [cbn; intuition discriminate|]). constructor.
  - intros c. apply (get_catalogue Spec.catalogue c).
  - intros c. split.
    + intros Hc. now destruct (@finding_of_catalogued [] c 0 Hc) as [_ [_ H]].
    + unfold Spec.name_of, Spec.catalogued.
      induction Spec.catalogue as [|[k nm] rows IH]; cbn [Spec.name_in map fst existsb].
      * intros H. now contradiction H.
      * destruct (c =? k)%N; [reflexivity|exact IH].
  - intros d i p. destruct (scanFile_total d i p) as [re' [Hscan Hre]].
    exists (findings_in d p), re'. split; [exact Hscan|].
    now destruct Hre as [->| ->].
Qed.

(** C10.  Given the output of the file listing, [getGitFiles] returns the
    line-feed-separated segments that have a character other than white
    space, in their order, never the empty path.  The run of [main] calls
    [scanFile] on exactly these segments, once each, in that order, and
    the report it writes and its exit status are the ones these scans
    give.  Every finding of every file carries the label [U+] followed by
    the four upper-case hexadecimal digits of the matched code unit, and
    the name the catalogue gives to that code unit. *)
Theorem listing_segments_and_labels (w : World) (output : jsstring) :
  git_ls_files w = Some output ->
  let segments := split 0x0A output in
  let files := filter Spec.has_visible segments in
  join [0x0A%N] segments = output
  /\ Forall (fun segment => ~ In 0x0A%N segment) segments
  /\ getGitFiles w = Return files
  /\ ~ In [] files
  /\ (exists r,
        main w = Some r
        /\ scanned r = files
        /\ (writable w jsonPath = true ->
            written r =
            [(jsonPath,
              Utf8.encode
                (JSON.stringify (results_json (collect (disk w) files Obj.empty))))]
            /\ exit_code r =
               if 0 <? Spec.total_findings (disk w) files then 1%N else 0%N))
  /\ (forall file f,
        In f (findings_in (disk w) file) ->
        exists c,
          char f = [c]
          /\ Spec.catalogued c = true
          /\ codepoint f = Spec.label c
          /\ name f = Spec.name_of c
          /\ name f <> None).
Proof.
  intros Hg segments files.
  split; [apply join_split|]. split; [apply split_no_separator|].
  split; [now apply getGitFiles_listing|]. split; [|split].
  - intros Hin. apply filter_In in Hin as [_ Hv]. discriminate Hv.
  - rewrite (main_run _ (getGitFiles_listing _ Hg)). fold segments. fold files.
    eexists. split; [reflexivity|].
    destruct (writable w jsonPath); cbn [scanned written exit_code].
    + split; [reflexivity|]. intros _. split; reflexivity.
    + split; [reflexivity|]. discriminate.
  - intros file f Hin.
    destruct (findings_in_sound _ _ _ Hin) as [content [c [_ [_ [Hc Hf]]]]].
    destruct (@finding_of_catalogued content c (position f) Hc)
      as [Hlabel [Hname Hsome]].
    exists c. rewrite Hf at 1 2 3 4. rewrite Hlabel, Hname. auto.
Qed.

Lemma listing_segments_and_labels_witness :
  let w := Sample.world [lit "desc.txt"; lit "  "; lit "lines.txt"] in
  let segments := split 0x0A (Sample.listing [lit "desc.txt"; lit "  "; lit "lines.txt"]) in
  let files := filter Spec.has_visible segments in
  files = [lit "desc.txt"; lit "lines.txt"]
  /\ (join [0x0A%N] segments = Sample.listing [lit "desc.txt"; lit "  "; lit "lines.txt"]
      /\ Forall (fun segment => ~ In 0x0A%N segment) segments
      /\ getGitFiles w = Return files
      /\ ~ In [] files
      /\ (exists r,
            main w = Some r
            /\ scanned r = files
            /\ (writable w jsonPath = true ->
                written r =
                [(jsonPath,
                  Utf8.encode
                    (JSON.stringify (results_json (collect (disk w) files Obj.empty))))]
                /\ exit_code r =
                   if 0 <? Spec.total_findings (disk w) files then 1%N else 0%N))
      /\ (forall file f,
            In f (findings_in (disk w) file) ->
            exists c,
              char f = [c]
              /\ Spec.catalogued c = true
              /\ codepoint f = Spec.label c
              /\ name f = Spec.name_of c
              /\ name f <> None)).
Proof.
  split; [reflexivity|].
  apply (@listing_segments_and_labels
           (Sample.world [lit "desc.txt"; lit "  "; lit "lines.txt"])
           (Sample.listing [lit "desc.txt"; lit "  "; lit "lines.txt"])).
  reflexivity.
Defined.

(* ===================================================================== *)
(** ** More on the pattern and on one scan *)
(* ===================================================================== *)

Lemma catalogued_at_nil (k : nat) : Spec.catalogued_at [] k = false.
Proof. unfold Spec.catalogued_at. now destruct k. Qed.

Lemma catalogued_at_skipn (content : jsstring) (i k : nat) :
  Spec.catalogued_at (skipn i content) k = Spec.catalogued_at content (i + k).
Proof. unfold Spec.catalogued_at. now rewrite nth_error_skipn. Qed.

(** What a search over the rest [s] of a text returns. *)
Lemma search_outcome (s : jsstring) :
  forall i,
    match search (Obj.keys UNSAFE_CHARS) s i with
    | Some m =>
        exists k c,
          index m = i + k /\ matched m = [c]
          /\ nth_error s k = Some c /\ Spec.catalogued c = true
          /\ forall k', k' < k -> Spec.catalogued_at s k' = false
    | None => forall k, Spec.catalogued_at s k = false
    end.
Proof.
  induction s as [|c r IH]; intros i.
  - rewrite search_unfold, match_here_end. apply catalogued_at_nil.
  - destruct (Spec.catalogued c) eqn:Hc.
    + rewrite search_hit by exact Hc. exists 0, c. cbn.
      rewrite Nat.add_0_r. repeat split; auto. intros k' Hk. lia.
    + rewrite search_skip by exact Hc. specialize (IH (S i)).
      destruct (search (Obj.keys UNSAFE_CHARS) r (S i)) as [m|].
      * destruct IH as [k [c' [Hi [Hm [Hk [Hc' Hbefore]]]]]].
        exists (S k), c'. repeat split; auto; [lia|].
        intros [|k'] Hlt; [unfold Spec.catalogued_at; cbn; exact Hc|].
        apply (Hbefore k'). lia.
      * intros [|k]; [unfold Spec.catalogued_at; cbn; exact Hc|apply IH].
Qed.

(** X1.  One call of [unsafePattern.exec]: the match is the first catalogued
    code unit at or after [lastIndex], alone, and [lastIndex] moves just
    past it; without such a code unit the call fails and [lastIndex] is
    back at 0. *)
Theorem exec_finds_next_occurrence (content : jsstring) (i : nat) :
  match exec (pattern_at i) content with
  | (Some m, re') =>
      exists c,
        matched m = [c]
        /\ nth_error content (index m) = Some c
        /\ Spec.catalogued c = true
        /\ i <= index m
        /\ (forall j, i <= j -> j < index m ->
                      Spec.catalogued_at content j = false)
        /\ re' = pattern_at (S (index m))
  | (None, re') =>
      re' = pattern_at 0
      /\ forall j, i <= j -> Spec.catalogued_at content j = false
  end.
Proof.
  unfold exec. cbn [lastIndex alternatives pattern_at set_lastIndex unsafePattern].
  destruct (length content <? i) eqn:Hlen.
  - apply Nat.ltb_lt in Hlen. split; [reflexivity|]. intros j Hj.
    unfold Spec.catalogued_at.
    replace (nth_error content j) with (@None N); [reflexivity|].
    symmetry. apply nth_error_None. lia.
  - pose proof (search_outcome (skipn i content) i) as Hs.
    destruct (search (Obj.keys UNSAFE_CHARS) (skipn i content) i) as [m|].
    + destruct Hs as [k [c [Hi [Hm [Hk [Hc Hbefore]]]]]].
      exists c. rewrite nth_error_skipn in Hk. rewrite Hi, Hm.
      repeat split; auto; [lia| |].
      * intros j Hij Hjk. replace j with (i + (j - i)) by lia.
        rewrite <- catalogued_at_skipn. apply Hbefore. lia.
      * cbn [length]. unfold pattern_at, set_lastIndex. f_equal. lia.
    + split; [reflexivity|]. intros j Hij.
      replace j with (i + (j - i)) by lia.
      rewrite <- catalogued_at_skipn. apply Hs.
Qed.

Lemma findings_from_nil_iff (content s : jsstring) (i : nat) :
  findings_from content i s = [] <->
  Forall (fun c => Spec.catalogued c = false) s.
Proof.
  revert i; induction s as [|c r IH]; intros i; cbn [findings_from].
  - split; constructor.
  - destruct (Spec.catalogued c) eqn:Hc.
    + split; [discriminate|]. intros H. inversion H. congruence.
    + rewrite IH. split; [now constructor|]. intros H. now inversion H.
Qed.

(** X2.  [scanFile] returns no finding exactly for the files it cannot read and
    for the texts without a catalogued code unit. *)
Theorem findings_empty_iff (d : Disk) (filePath : jsstring) :
  findings_in d filePath = [] <->
  readFileSync d filePath = None
  \/ exists content,
       readFileSync d filePath = Some content
       /\ Forall (fun c => Spec.catalogued c = false) content.
Proof.
  destruct (readFileSync d filePath) as [content|] eqn:Hr.
  - rewrite (findings_in_readable _ _ Hr), findings_from_nil_iff. split.
    + intros H. right. now exists content.
    + intros [H|[content' [H1 H2]]]; [discriminate|]. now injection H1 as ->.
  - rewrite findings_in_unreadable by exact Hr. split; auto.
Qed.

Lemma firstn_le_split (A : Type) (l : list A) (a b : nat) :
  a <= b -> exists rest, firstn b l = firstn a l ++ rest.
Proof.
  revert a b; induction l as [|x l IH]; intros a b Hab.
  - exists []. now rewrite !firstn_nil.
  - destruct a as [|a]; [now exists (firstn b (x :: l))|].
    destruct b as [|b]; [lia|].
    destruct (IH a b ltac:(lia)) as [rest Hrest].
    exists rest. cbn [firstn app]. now rewrite Hrest.
Qed.

Lemma newlines_before_mono (content : jsstring) (a b : nat) :
  a <= b -> Spec.newlines_before content a <= Spec.newlines_before content b.
Proof.
  intros Hab. unfold Spec.newlines_before.
  destruct (firstn_le_split content Hab) as [rest ->].
  rewrite count_occ_app. lia.
Qed.

Lemma newlines_before_bound (content : jsstring) (a : nat) :
  Spec.newlines_before content a <= count_occ N.eq_dec content 0x0A%N.
Proof.
  unfold Spec.newlines_before.
  rewrite <- (firstn_skipn a content) at 2. rewrite count_occ_app. lia.
Qed.

Lemma finding_of_line (content : jsstring) (m : MatchResult) :
  line (finding_of content m) = 1 + Spec.newlines_before content (index m).
Proof.
  cbn [line finding_of]. unfold substring0, Spec.newlines_before.
  now rewrite split_length.
Qed.

Lemma findings_from_lines (content s : jsstring) :
  forall i, skipn i content = s ->
    map line (findings_from content i s) =
    map (fun p => 1 + Spec.newlines_before content p)
        (map position (findings_from content i s)).
Proof.
  induction s as [|c r IH]; intros i Hs; [reflexivity|].
  cbn [findings_from]. pose proof (IH (S i) (skipn_cons_S _ _ Hs)) as IH'.
  destruct (Spec.catalogued c); [|exact IH'].
  cbn [map]. rewrite IH', finding_of_line. reflexivity.
Qed.

Lemma map_sorted_mono (g : nat -> nat) (l : list nat) :
  (forall a b, a <= b -> g a <= g b) ->
  StronglySorted lt l -> StronglySorted le (map g l).
Proof.
  intros Hg. induction 1 as [|x l Hl IH Hx]; cbn [map]; constructor;
    [exact IH|].
  apply Forall_forall. intros y Hy. apply in_map_iff in Hy as [z [<- Hz]].
  rewrite Forall_forall in Hx. apply Hg. specialize (Hx z Hz). lia.
Qed.

(** X3.  The lines of the findings of a file never decrease along the sequence
    returned, and each lies between 1 and 1 plus the number of line feeds
    of the text. *)
Theorem finding_lines_ascend (d : Disk) (filePath content : jsstring) :
  readFileSync d filePath = Some content ->
  StronglySorted le (map line (findings_in d filePath))
  /\ Forall (fun f => 1 <= line f
                      /\ line f <= 1 + count_occ N.eq_dec content 0x0A%N)
            (findings_in d filePath).
Proof.
  intros Hr. rewrite (findings_in_readable _ _ Hr). split.
  - rewrite (@findings_from_lines content content 0 eq_refl).
    apply map_sorted_mono.
    + intros a b Hab. pose proof (newlines_before_mono content Hab). lia.
    + rewrite (@positions_from content content 0 eq_refl).
      apply filter_strictly_sorted, seq_strictly_sorted.
  - apply Forall_forall. intros f Hin.
    destruct (@findings_from_In content content f 0 eq_refl Hin)
      as [c [_ [_ Hf]]].
    rewrite Hf, finding_of_line. cbn [index].
    pose proof (newlines_before_bound content (position f)). lia.
Qed.

Lemma finding_lines_ascend_witness :
  StronglySorted le (map line (findings_in Sample.tree (lit "lines.txt")))
  /\ Forall (fun f => 1 <= line f
                      /\ line f <= 1 + count_occ N.eq_dec Sample.zwsp_text 0x0A%N)
            (findings_in Sample.tree (lit "lines.txt")).
Proof.
  apply (@finding_lines_ascend Sample.tree (lit "lines.txt") Sample.zwsp_text).
  reflexivity.
Defined.

Lemma finding_of_shift (a b : jsstring) (c : N) (i : nat) :
  finding_of (a ++ b) (mkMatch [c] (length a + i)) =
  shift_finding a (finding_of b (mkMatch [c] i)).
Proof.
  unfold finding_of, shift_finding.
  cbn [matched index char codepoint name position line]. f_equal.
  unfold substring0. rewrite firstn_app_2, !split_length, count_occ_app. lia.
Qed.

Lemma finding_of_prefix (a b : jsstring) (c : N) (i : nat) :
  i <= length a ->
  finding_of (a ++ b) (mkMatch [c] i) = finding_of a (mkMatch [c] i).
Proof.
  intros Hi. unfold finding_of. cbn [matched index]. f_equal.
  unfold substring0. rewrite firstn_app.
  replace (i - length a) with 0 by lia. cbn [firstn]. now rewrite app_nil_r.
Qed.

Lemma findings_from_shift (a b s : jsstring) :
  forall i,
    findings_from (a ++ b) (length a + i) s =
    map (shift_finding a) (findings_from b i s).
Proof.
  induction s as [|c r IH]; intros i; [reflexivity|].
  cbn [findings_from]. pose proof (IH (S i)) as IH'.
  rewrite Nat.add_succ_r in IH'.
  destruct (Spec.catalogued c); [|exact IH'].
  cbn [map]. now rewrite IH', finding_of_shift.
Qed.

Lemma findings_from_prefix (a b s : jsstring) :
  forall i, i + length s <= length a ->
    findings_from (a ++ b) i s = findings_from a i s.
Proof.
  induction s as [|c r IH]; intros i Hi; [reflexivity|].
  cbn [findings_from length] in *.
  rewrite IH by lia. rewrite finding_of_prefix by lia. reflexivity.
Qed.

Lemma findings_from_app (content s1 s2 : jsstring) :
  forall i,
    findings_from content i (s1 ++ s2) =
    findings_from content i s1 ++ findings_from content (i + length s1) s2.
Proof.
  induction s1 as [|c r IH]; intros i.
  - cbn. now rewrite Nat.add_0_r.
  - cbn [findings_from app length]. rewrite IH.
    replace (S i + length r) with (i + S (length r)) by lia.
    now destruct (Spec.catalogued c).
Qed.

(** X4.  Scanning two texts one after the other: the findings of the first,
    then the findings of the second with their offsets moved by the length
    of the first and their lines by its number of line feeds. *)
Theorem findings_of_concatenation
  (d : Disk) (pa pb pab : jsstring) (a b : jsstring) :
  readFileSync d pa = Some a ->
  readFileSync d pb = Some b ->
  readFileSync d pab = Some (a ++ b) ->
  findings_in d pab =
  findings_in d pa ++ map (shift_finding a) (findings_in d pb).
Proof.
  intros Ha Hb Hab.
  rewrite (findings_in_readable _ _ Ha), (findings_in_readable _ _ Hb),
    (findings_in_readable _ _ Hab).
  rewrite findings_from_app. cbn [Nat.add]. f_equal.
  - apply findings_from_prefix. cbn. lia.
  - rewrite <- (Nat.add_0_r (length a)). apply findings_from_shift.
Qed.

Lemma findings_of_concatenation_witness :
  let d : Disk := fun p =>
    if JS.eqb p (lit "a") then Some Sample.rlo_file
    else if JS.eqb p (lit "b") then Some Sample.zwsp_file
    else Some (Sample.rlo_file ++ Sample.zwsp_file) in
  findings_in d (lit "ab") =
  findings_in d (lit "a")
  ++ map (shift_finding Sample.rlo_text) (findings_in d (lit "b")).
Proof.
  apply (@findings_of_concatenation _ (lit "a") (lit "b") (lit "ab")
           Sample.rlo_text Sample.zwsp_text); reflexivity.
Defined.

(* ===================================================================== *)
(** ** Labels *)
(* ===================================================================== *)

Lemma hex_value_snoc (s : jsstring) (c : N) :
  hex_value (s ++ [c]) = hex_step (hex_value s) c.
Proof. unfold hex_value. now rewrite fold_left_app. Qed.

Lemma hex_value_zeros (k : nat) (s : jsstring) :
  hex_value (repeat 48%N k ++ s) = hex_value s.
Proof.
  unfold hex_value. rewrite fold_left_app. f_equal.
  induction k as [|k IH]; [reflexivity|exact IH].
Qed.

(** A digit of [toString(16)], in upper case, has its own value. *)
Lemma hex_digit_round_trip (a v : N) :
  (v < 16)%N ->
  hex_step (Some a) (nth 0 (toUpperCase [digit v]) 0%N) = Some (16 * a + v)%N.
Proof.
  intros Hv.
  assert (Hcases : In v [0; 1; 2; 3; 4; 5; 6; 7; 8; 9; 10; 11; 12; 13; 14; 15]%N)
    by (cbn [In]; lia).
  cbn [In] in Hcases.
  repeat (destruct Hcases as [<-|Hcases]; [reflexivity|]). contradiction.
Qed.

Lemma digits_hex_value (fuel : nat) :
  forall n, (n < 2 ^ N.of_nat fuel)%N ->
    hex_value (toUpperCase (digits fuel 16 n)) = Some n.
Proof.
  induction fuel as [|fuel IH]; intros n Hn.
  - assert (n = 0%N) by (cbn in Hn; lia). now subst n.
  - cbn [digits]. destruct (n <? 16)%N eqn:Hlt.
    + apply N.ltb_lt in Hlt.
      pose proof (hex_digit_round_trip 0 Hlt) as H. rewrite N.mul_0_r in H.
      exact H.
    + replace (toUpperCase (digits fuel 16 (n / 16) ++ [digit (n mod 16)]))
        with (toUpperCase (digits fuel 16 (n / 16))
              ++ [nth 0 (toUpperCase [digit (n mod 16)]) 0%N])
        by (unfold toUpperCase; now rewrite map_app).
      rewrite hex_value_snoc, IH.
      * rewrite hex_digit_round_trip by (apply N.mod_lt; discriminate).
        f_equal. symmetry. apply N.div_mod. discriminate.
      * rewrite Nat2N.inj_succ, N.pow_succ_r' in Hn.
        apply N.Div0.div_lt_upper_bound. lia.
Qed.

Lemma digits_nonempty (fuel : nat) (base n : N) : digits fuel base n <> [].
Proof.
  destruct fuel as [|fuel]; cbn [digits]; [discriminate|].
  destruct (n <? base)%N; [discriminate|].
  intros H. apply app_eq_nil in H as [_ H]. discriminate.
Qed.

(** The label of line 63 reads back as the code unit it was made from. *)
Lemma label_value_finding_of (content : jsstring) (c : N) (i : nat) :
  label_value (codepoint (finding_of content (mkMatch [c] i))) = Some c.
Proof.
  cbn [codepoint finding_of matched charCodeAt nth_error].
  change (lit "U+") with [85%N; 43%N]. cbn [app].
  assert (Hval : hex_value (padStart0 4 (toUpperCase (Number_toString 16 (Some c))))
                 = Some c).
  { unfold padStart0. rewrite hex_value_zeros. cbn [Number_toString].
    apply digits_hex_value. rewrite N2Nat.id. apply N.size_gt. }
  destruct (padStart0 4 (toUpperCase (Number_toString 16 (Some c))))
    as [|x numeral] eqn:E; [|exact Hval].
  exfalso. unfold padStart0 in E. apply app_eq_nil in E as [_ E].
  unfold toUpperCase in E. apply map_eq_nil in E.
  now apply digits_nonempty in E.
Qed.

(** X5.  The label of every finding reads back as the matched character, so
    two findings carry the same label exactly when they carry the same
    character. *)
Theorem label_round_trip (d : Disk) (filePath : jsstring) (f : Finding) :
  In f (findings_in d filePath) ->
  exists c,
    char f = [c]
    /\ label_value (codepoint f) = Some c
    /\ forall d' filePath' g,
         In g (findings_in d' filePath') ->
         (codepoint g = codepoint f <-> char g = char f).
Proof.
  intros Hf.
  destruct (findings_in_sound _ _ _ Hf) as [content [c [_ [_ [_ Ef]]]]].
  assert (Hlabel : label_value (codepoint f) = Some c)
    by (rewrite Ef; apply label_value_finding_of).
  exists c. split; [now rewrite Ef|]. split; [exact Hlabel|].
  intros d' filePath' g Hg.
  destruct (findings_in_sound _ _ _ Hg) as [content' [c' [_ [_ [_ Eg]]]]].
  assert (Hlabel' : label_value (codepoint g) = Some c')
    by (rewrite Eg; apply label_value_finding_of).
  split.
  - intros E. rewrite E, Hlabel in Hlabel'. injection Hlabel' as <-.
    rewrite Ef, Eg. reflexivity.
  - intros E. rewrite Ef, Eg in E. cbn [char finding_of matched] in E.
    injection E as ->. rewrite Ef, Eg. reflexivity.
Qed.

Lemma label_round_trip_witness :
  exists c,
    char (mkFinding [0x202E%N] (lit "U+202E")
            (Some (lit "RLO (Right-to-Left Override)")) 0 1) = [c]
    /\ label_value (lit "U+202E") = Some c
    /\ forall d' filePath' g,
         In g (findings_in d' filePath') ->
         (codepoint g = lit "U+202E" <-> char g = [0x202E%N]).
Proof.
  apply (@label_round_trip Sample.tree (lit "desc.txt")).
  left. reflexivity.
Defined.

(* ===================================================================== *)
(** ** The report object *)
(* ===================================================================== *)

Lemma insert_index_perm (V : Type) (n : N) (p : jsstring * V)
  (l : list (N * (jsstring * V))) :
  Permutation (map snd (Obj.insert_index n p l)) (p :: map snd l).
Proof.
  induction l as [|[m q] l IH]; cbn [Obj.insert_index map snd]; [reflexivity|].
  destruct (n <=? m)%N; cbn [map snd]; [reflexivity|].
  rewrite IH. apply perm_swap.
Qed.

(** [Object.entries] lists the own properties, each once. *)
Lemma entries_perm (V : Type) (o : Obj.t V) : Permutation (Obj.entries o) o.
Proof.
  unfold Obj.entries. induction o as [|[k v] o IH]; [reflexivity|].
  cbn [Obj.index_props filter]. unfold Obj.is_index_key at 1. cbn [fst].
  destruct (Obj.array_index k) as [n|]; cbn [negb].
  - rewrite insert_index_perm. cbn [app]. now apply perm_skip.
  - rewrite <- Permutation_middle. now apply perm_skip.
Qed.

Lemma entries_plain (V : Type) (o : Obj.t V) :
  Forall (fun p => Obj.array_index (fst p) = None) o -> Obj.entries o = o.
Proof.
  intros Ho. unfold Obj.entries.
  assert (Hidx : Obj.index_props o = []).
  { induction Ho as [|[k v] o Hk Ho IH]; [reflexivity|].
    cbn [Obj.index_props fst] in *. now rewrite Hk. }
  rewrite Hidx. cbn [map app].
  induction Ho as [|[k v] o Hk Ho IH]; [reflexivity|].
  cbn [filter]. unfold Obj.is_index_key at 1. cbn [fst] in *.
  rewrite Hk. cbn [negb]. f_equal. apply IH.
  cbn [Obj.index_props] in Hidx. now rewrite Hk in Hidx.
Qed.

Lemma put_fresh (V : Type) (k : jsstring) (v : V) (o : Obj.t V) :
  ~ In k (map fst o) -> Obj.put k v o = o ++ [(k, v)].
Proof.
  induction o as [|[k0 v0] o IH]; intros Hk; [reflexivity|].
  cbn [Obj.put map fst In app] in *.
  destruct (JS.eqb k k0) eqn:E.
  - apply eqb_eq in E. subst. tauto.
  - rewrite IH by tauto. reflexivity.
Qed.

Lemma put_entry (V : Type) (k k' : jsstring) (v v' : V) (o : Obj.t V) :
  In (k', v') (Obj.put k v o) -> (k' = k /\ v' = v) \/ In (k', v') o.
Proof.
  induction o as [|[k0 v0] o IH]; cbn [Obj.put In].
  - intros [H|[]]. injection H as <- <-. auto.
  - destruct (JS.eqb k k0); cbn [In].
    + intros [H|H]; [injection H as <- <-|]; auto.
    + intros [H|H]; [auto|]. apply IH in H. tauto.
Qed.

Lemma put_keys_NoDup (V : Type) (k : jsstring) (v : V) (o : Obj.t V) :
  NoDup (map fst o) -> NoDup (map fst (Obj.put k v o)).
Proof.
  induction o as [|[k0 v0] o IH]; cbn [Obj.put map fst]; intros Ho.
  - constructor; [intros []|constructor].
  - inversion Ho as [|x l Hx Hl]; subst.
    destruct (JS.eqb k k0) eqn:E; cbn [map fst].
    + apply eqb_eq in E. subst. now constructor.
    + constructor; [|now apply IH].
      rewrite put_In. apply eqb_neq in E. intros [->|H]; tauto.
Qed.

Lemma assign_keys_NoDup (V : Type) (k : jsstring) (v : V) (o : Obj.t V) :
  NoDup (map fst o) -> NoDup (map fst (Obj.assign k v o)).
Proof.
  unfold Obj.assign. destruct (JS.eqb k Obj.proto_key); [auto|].
  apply put_keys_NoDup.
Qed.

Lemma assign_entry (V : Type) (k k' : jsstring) (v v' : V) (o : Obj.t V) :
  In (k', v') (Obj.assign k v o) ->
  (k' = k /\ v' = v /\ k <> Obj.proto_key) \/ In (k', v') o.
Proof.
  unfold Obj.assign. destruct (JS.eqb k Obj.proto_key) eqn:E; [auto|].
  apply eqb_neq in E. intros H. apply put_entry in H. tauto.
Qed.

Lemma collect_keys_NoDup (d : Disk) (files : list jsstring) :
  forall results,
    NoDup (map fst results) -> NoDup (map fst (collect d files results)).
Proof.
  induction files as [|file rest IH]; intros results Hr; [exact Hr|].
  rewrite collect_cons. apply IH.
  destruct (0 <? length (findings_in d file)); [|exact Hr].
  now apply assign_keys_NoDup.
Qed.

Lemma collect_entry (d : Disk) (files : list jsstring) :
  forall results k v,
    In (k, v) (collect d files results) ->
    In (k, v) results
    \/ (v = findings_in d k /\ v <> [] /\ In k files /\ k <> Obj.proto_key).
Proof.
  induction files as [|file rest IH]; intros results k v Hin; [now left|].
  rewrite collect_cons in Hin. apply IH in Hin.
  destruct Hin as [Hin|[H1 [H2 [H3 H4]]]]; [|right; cbn [In]; auto].
  destruct (0 <? length (findings_in d file)) eqn:Hlen; [|now left].
  apply assign_entry in Hin. destruct Hin as [[-> [-> Hp]]|Hin]; [|now left].
  right. repeat split; auto; [|now left].
  intros E. rewrite E in Hlen. discriminate.
Qed.

(** X6.  The report holds no path twice, even when the listing does; each
    entry pairs a listed path with the findings of that very file, and
    that sequence is not empty. *)
Theorem report_entries (d : Disk) (files : list jsstring) :
  NoDup (Obj.keys (collect d files Obj.empty))
  /\ forall file findings,
       In (file, findings) (Obj.entries (collect d files Obj.empty)) ->
       findings = findings_in d file /\ findings <> [] /\ In file files.
Proof.
  split.
  - unfold Obj.keys.
    apply (Permutation_NoDup (l := map fst (collect d files Obj.empty))).
    + apply Permutation_map. symmetry. apply entries_perm.
    + apply collect_keys_NoDup. constructor.
  - intros file findings Hin. rewrite entries_In in Hin.
    apply collect_entry in Hin. destruct Hin as [[]|[H1 [H2 [H3 _]]]]. auto.
Qed.

Lemma collect_raw (d : Disk) (files : list jsstring) :
  forall results,
    NoDup files -> ~ In Obj.proto_key files ->
    (forall f, In f files -> ~ In f (map fst results)) ->
    collect d files results =
    results
    ++ map (fun f => (f, findings_in d f))
         (filter (fun f => 0 <? length (findings_in d f)) files).
Proof.
  induction files as [|file rest IH]; intros results Hnd Hproto Hfresh.
  - cbn. now rewrite app_nil_r.
  - inversion Hnd as [|x l Hfile Hrest]; subst.
    rewrite collect_cons. cbn [filter].
    destruct (0 <? length (findings_in d file)) eqn:Hlen.
    + assert (Hp : JS.eqb file Obj.proto_key = false)
        by (apply eqb_neq; intros E; apply Hproto; now left).
      unfold Obj.assign. rewrite Hp.
      rewrite put_fresh by (apply Hfresh; now left).
      rewrite IH; auto.
      * cbn [map]. now rewrite <- app_assoc.
      * intros H. apply Hproto. now right.
      * intros f Hf. rewrite map_app, in_app_iff. cbn [map fst In].
        intros [H|[H|[]]]; [apply (Hfresh f); auto; now right|congruence].
    + apply IH; auto.
      * intros H. apply Hproto. now right.
      * intros f Hf. apply Hfresh. now right.
Qed.

(** X7.  When no listed path is [__proto__] or the numeral of an array index,
    and none is listed twice, the report has the files with findings in
    the order of the listing. *)
Theorem report_order (d : Disk) (files : list jsstring) :
  NoDup files ->
  ~ In Obj.proto_key files ->
  Forall (fun f => Obj.array_index f = None) files ->
  Obj.entries (collect d files Obj.empty) =
  map (fun f => (f, findings_in d f))
      (filter (fun f => 0 <? length (findings_in d f)) files).
Proof.
  intros Hnd Hproto Hplain.
  rewrite collect_raw; auto. cbn [app].
  apply entries_plain. apply Forall_forall. intros [k v] Hin.
  apply in_map_iff in Hin as [f [E Hf]]. injection E as <- <-.
  apply filter_In in Hf as [Hf _]. cbn [fst].
  rewrite Forall_forall in Hplain. now apply Hplain.
Qed.

Lemma report_order_witness :
  Obj.entries (collect Sample.tree [lit "lines.txt"; lit "clean.txt"; lit "desc.txt"]
                 Obj.empty) =
  map (fun f => (f, findings_in Sample.tree f))
      (filter (fun f => 0 <? length (findings_in Sample.tree f))
              [lit "lines.txt"; lit "clean.txt"; lit "desc.txt"]).
Proof.
  apply (@report_order Sample.tree [lit "lines.txt"; lit "clean.txt"; lit "desc.txt"]).
  - repeat (constructor; [cbn; intuition discriminate|]). constructor.
  - cbn. intuition discriminate.
  - repeat (constructor; [reflexivity|]). constructor.
Defined.

Lemma list_sum_perm (A : Type) (g : A -> nat) (l l' : list A) :
  Permutation l l' -> list_sum (map g l) = list_sum (map g l').
Proof.
  induction 1; simpl; lia.
Qed.

Lemma total_findings_filter (d : Disk) (files : list jsstring) :
  list_sum
    (map (fun p => length (snd p))
         (map (fun f => (f, findings_in d f))
              (filter (fun f => 0 <? length (findings_in d f)) files))) =
  Spec.total_findings d files.
Proof.
  induction files as [|file rest IH]; [reflexivity|].
  rewrite total_findings_cons. cbn [filter].
  destruct (0 <? length (findings_in d file)) eqn:Hlen.
  - cbn [map snd]. change (list_sum (?x :: ?l)) with (x + list_sum l).
    now rewrite IH.
  - apply Nat.ltb_ge in Hlen. rewrite IH. lia.
Qed.

(** X8.  When no path is listed twice and none is [__proto__], the numbers the
    script prints agree with the report: the total is the sum of the
    lengths of the report's entries, and the report has one key for each
    listed file with a finding. *)
Theorem report_totals (d : Disk) (files : list jsstring) :
  NoDup files ->
  ~ In Obj.proto_key files ->
  list_sum (map (fun p => length (snd p)) (Obj.entries (collect d files Obj.empty)))
  = Spec.total_findings d files
  /\ length (Obj.keys (collect d files Obj.empty))
     = length (filter (fun f => 0 <? length (findings_in d f)) files).
Proof.
  intros Hnd Hproto.
  assert (Hraw : collect d files Obj.empty =
                 map (fun f => (f, findings_in d f))
                     (filter (fun f => 0 <? length (findings_in d f)) files))
    by (rewrite collect_raw; auto).
  split.
  - rewrite (list_sum_perm _ (entries_perm (collect d files Obj.empty))).
    rewrite Hraw. apply total_findings_filter.
  - unfold Obj.keys. rewrite length_map.
    rewrite (Permutation_length (entries_perm (collect d files Obj.empty))).
    rewrite Hraw. now rewrite length_map.
Qed.

Lemma report_totals_witness :
  list_sum (map (fun p => length (snd p))
                (Obj.entries (collect Sample.tree Sample.two_files Obj.empty)))
  = Spec.total_findings Sample.tree Sample.two_files
  /\ length (Obj.keys (collect Sample.tree Sample.two_files Obj.empty))
     = length (filter (fun f => 0 <? length (findings_in Sample.tree f))
                      Sample.two_files).
Proof.
  apply (@report_totals Sample.tree Sample.two_files).
  - repeat (constructor; [cbn; intuition discriminate|]). constructor.
  - cbn. intuition discriminate.
Defined.

Lemma total_findings_nonzero (d : Disk) (files : list jsstring) :
  Spec.total_findings d files <> 0 ->
  exists file, In file files /\ findings_in d file <> [].
Proof.
  induction files as [|file rest IH]; intros Hz; [now contradiction Hz|].
  rewrite total_findings_cons in Hz.
  destruct (findings_in d file) as [|f fs] eqn:E.
  - destruct (IH ltac:(cbn in Hz; lia)) as [file' [Hin Hne]].
    exists file'. split; [now right|exact Hne].
  - exists file. split; [now left|]. rewrite E. discriminate.
Qed.

Lemma encode_open_brace (s : jsstring) :
  Utf8.encode (0x7B%N :: 0x0A%N :: s) <> [Byte.x7b; Byte.x7d].
Proof.
  unfold Utf8.encode.
  rewrite (@codePoints_unit 0x7B%N) by reflexivity.
  rewrite (@codePoints_unit 0x0A%N) by reflexivity.
  cbn [flat_map].
  change (Utf8.encode_code_point 0x7B%N) with [Byte.x7b].
  change (Utf8.encode_code_point 0x0A%N) with [Byte.x0a].
  cbn [app]. discriminate.
Qed.

Lemma stringify_nonempty (results : Obj.t (list Finding)) :
  results <> [] ->
  Utf8.encode (JSON.stringify (results_json results)) <> [Byte.x7b; Byte.x7d].
Proof.
  intros Hne. unfold results_json.
  destruct (Obj.entries results) as [|p ps] eqn:E.
  - exfalso. apply Hne.
    pose proof (Permutation_length (entries_perm results)) as Hlen.
    rewrite E in Hlen. now destruct results.
  - cbn [map]. unfold JSON.stringify. cbn [JSON.serialize].
    unfold JSON.block, JSON.newline. change (lit "{") with [0x7B%N].
    cbn [app]. apply encode_open_brace.
Qed.

(** X9.  For a listing without the path [__proto__]: the run exits with 0
    exactly when the report it wrote is the empty object. *)
Theorem empty_report_iff_pass (w : World) (files : list jsstring) (r : Run) :
  getGitFiles w = Return files ->
  ~ In Obj.proto_key files ->
  main w = Some r ->
  (exit_code r = 0%N <-> written r = [(jsonPath, [Byte.x7b; Byte.x7d])]).
Proof.
  intros Hfiles Hproto Hmain.
  rewrite (main_run _ Hfiles) in Hmain. injection Hmain as <-.
  destruct (writable w jsonPath); cbn [exit_code written];
    [|split; discriminate].
  destruct (Spec.total_findings (disk w) files) as [|n] eqn:Ht.
  - rewrite (collect_nothing _ _ _ Ht). cbn. split; reflexivity.
  - cbn. split; [discriminate|]. intros Hw. exfalso.
    destruct (@total_findings_nonzero (disk w) files ltac:(lia))
      as [file [Hin Hne]].
    assert (Hkey : In file (Obj.keys (collect (disk w) files Obj.empty))).
    { apply report_keys. repeat split; auto. intros E. subst. contradiction. }
    apply (@stringify_nonempty (collect (disk w) files Obj.empty)).
    + intros E. rewrite E in Hkey. contradiction.
    + now injection Hw.
Qed.

Lemma empty_report_iff_pass_witness :
  exit_code Sample.first_run = 0%N <->
  written Sample.first_run = [(jsonPath, [Byte.x7b; Byte.x7d])].
Proof.
  apply (@empty_report_iff_pass (Sample.world Sample.two_files) Sample.two_files).
  - reflexivity.
  - cbn. intuition discriminate.
  - reflexivity.
Defined.

(** X10.  A run leaves no report exactly when the listing failed or the
    report path cannot be written.  When the listing failed the run exits
    with 1 after the banner, without scanning or reading any file. *)
Theorem listing_failure (w : World) :
  exists r,
    main w = Some r
    /\ (written r = [] <->
        git_ls_files w = None \/ writable w jsonPath = false)
    /\ (git_ls_files w = None ->
        exit_code r = 1%N
        /\ scanned r = []
        /\ Console.stdout w = Some (Console.Completed [Console.banner])
        /\ forall d' writable', main (mkWorld None d' writable') = Some r).
Proof.
  destruct (git_ls_files w) as [output|] eqn:Hg.
  - rewrite (main_run _ (getGitFiles_listing _ Hg)). eexists.
    split; [reflexivity|]. split; [|discriminate].
    destruct (writable w jsonPath); cbn [written].
    + split; [discriminate|]. intros [H|H]; discriminate H.
    + split; auto.
  - rewrite (main_unlisted _ Hg). eexists. split; [reflexivity|].
    cbn [written exit_code scanned]. split; [tauto|]. intros _.
    split; [reflexivity|]. split; [reflexivity|]. split; [|reflexivity].
    unfold Console.stdout, getGitFiles. now rewrite Hg.
Qed.

(* ===================================================================== *)
(** ** The listing *)
(* ===================================================================== *)

Lemma split_segment (sep : N) (p rest : jsstring) :
  ~ In sep p -> split sep (p ++ sep :: rest) = p :: split sep rest.
Proof.
  induction p as [|c p IH]; intros Hp.
  - cbn [app split]. now rewrite N.eqb_refl.
  - cbn [app split]. cbn [In] in Hp.
    destruct (N.eqb_spec c sep) as [->|Hne]; [tauto|].
    rewrite IH by tauto. reflexivity.
Qed.

Lemma split_listing (paths : list jsstring) :
  Forall (fun p => ~ In 0x0A%N p) paths ->
  split 0x0A (Sample.listing paths) = paths ++ [[]].
Proof.
  induction 1 as [|p paths Hp Hpaths IH]; [reflexivity|].
  unfold Sample.listing in *. cbn [flat_map app].
  rewrite <- app_assoc. cbn [app]. rewrite split_segment by exact Hp.
  now rewrite IH.
Qed.

(** X11.  When the standard output of the listing command is a sequence
    of lines, each ended by a line feed, each with a character other than
    white space, [getGitFiles] returns exactly these lines, in order and
    unchanged: nothing is trimmed off a line and nothing in it is
    decoded. *)
Theorem getGitFiles_keeps_lines (w : World) (lines : list jsstring) :
  git_ls_files w = Some (flat_map (fun text => text ++ [0x0A%N]) lines) ->
  Forall (fun text => Spec.has_visible text = true /\ ~ In 0x0A%N text) lines ->
  getGitFiles w = Return lines.
Proof.
  intros Hg Hlines.
  rewrite (getGitFiles_listing _ Hg).
  change (flat_map (fun text => text ++ [0x0A%N]) lines)
    with (Sample.listing lines).
  rewrite split_listing
    by (apply Forall_forall; intros p Hp; rewrite Forall_forall in Hlines;
        now apply Hlines).
  rewrite filter_app. cbn [filter Spec.has_visible existsb]. rewrite app_nil_r.
  f_equal. clear Hg.
  induction Hlines as [|p paths [Hv _] _ IH]; [reflexivity|].
  cbn [filter]. now rewrite Hv, IH.
Qed.

Lemma getGitFiles_keeps_lines_witness :
  getGitFiles
    (mkWorld
       (Some (flat_map (fun text => text ++ [0x0A%N])
                       [lit " desc.txt"; [0x22%N] ++ lit "caf\303\251.txt" ++ [0x22%N]]))
       Sample.tree (fun _ => true))
  = Return [lit " desc.txt"; [0x22%N] ++ lit "caf\303\251.txt" ++ [0x22%N]].
Proof.
  apply getGitFiles_keeps_lines.
  - reflexivity.
  - repeat (constructor; [split; [reflexivity|cbn; intuition discriminate]|]).
    constructor.
Defined.

(* ===================================================================== *)
(** ** The counts of the console report *)
(* ===================================================================== *)

Lemma get_put_same (V : Type) (k : jsstring) (v : V) (o : Obj.t V) :
  Obj.get k (Obj.put k v o) = Some v.
Proof.
  induction o as [|[k0 v0] o IH]; cbn [Obj.put Obj.get].
  - now rewrite eqb_refl.
  - destruct (JS.eqb k k0) eqn:E; cbn [Obj.get]; rewrite ?E, ?eqb_refl; auto.
Qed.

Lemma get_put_other (V : Type) (k k' : jsstring) (v : V) (o : Obj.t V) :
  k' <> k -> Obj.get k' (Obj.put k v o) = Obj.get k' o.
Proof.
  intros Hne. induction o as [|[k0 v0] o IH]; cbn [Obj.put Obj.get].
  - apply eqb_neq in Hne. now rewrite Hne.
  - destruct (JS.eqb k k0) eqn:E; cbn [Obj.get].
    + apply eqb_eq in E. subst k0. apply eqb_neq in Hne. now rewrite Hne.
    + now rewrite IH.
Qed.

Lemma get_In (V : Type) (k : jsstring) (v : V) (o : Obj.t V) :
  Obj.get k o = Some v -> In (k, v) o.
Proof.
  induction o as [|[k0 v0] o IH]; cbn [Obj.get In]; [discriminate|].
  destruct (JS.eqb k k0) eqn:E; [|auto].
  apply eqb_eq in E. intros H. injection H as <-. subst. now left.
Qed.

Lemma count_step_get (counts : Obj.t nat) (f : Finding) (k : jsstring) :
  codepoint f <> Obj.proto_key ->
  Obj.get k (Console.count_step counts f) =
  if JS.eqb k (codepoint f)
  then Some (match Obj.get (codepoint f) counts with
             | Some n => n
             | None => 0
             end + 1)
  else Obj.get k counts.
Proof.
  intros Hp. unfold Console.count_step, Obj.assign.
  apply eqb_neq in Hp. rewrite Hp.
  destruct (JS.eqb k (codepoint f)) eqn:E.
  - apply eqb_eq in E. subst k. apply get_put_same.
  - apply eqb_neq in E. now apply get_put_other.
Qed.

(** The number a label is counted with: how many of the findings carry
    it; a label no finding carries has no entry. *)
Lemma counts_get (findings : list Finding) :
  forall counts,
    Forall (fun f => codepoint f <> Obj.proto_key) findings ->
    (forall k n, Obj.get k counts = Some n -> 0 < n) ->
    forall k,
      Obj.get k (fold_left Console.count_step findings counts) =
      match match Obj.get k counts with Some n => n | None => 0 end
            + length (filter (fun f => JS.eqb (codepoint f) k) findings) with
      | 0 => None
      | S n => Some (S n)
      end.
Proof.
  induction findings as [|f fs IH]; intros counts Hp Hpos k.
  - cbn [fold_left filter length]. rewrite Nat.add_0_r.
    destruct (Obj.get k counts) as [n|] eqn:E; [|reflexivity].
    specialize (Hpos k n E). now destruct n; [lia|].
  - inversion Hp as [|x l Hf Hfs]; subst. cbn [fold_left filter].
    rewrite IH; auto.
    + rewrite count_step_get by exact Hf.
      destruct (JS.eqb k (codepoint f)) eqn:E.
      * apply eqb_eq in E. subst k. rewrite eqb_refl. cbn [length].
        now replace (match Obj.get (codepoint f) counts with
                     | Some n => n | None => 0 end + 1
                     + length (filter (fun f0 => JS.eqb (codepoint f0) (codepoint f)) fs))
          with (match Obj.get (codepoint f) counts with
                | Some n => n | None => 0 end
                + S (length (filter (fun f0 => JS.eqb (codepoint f0) (codepoint f)) fs)))
          by lia.
      * replace (JS.eqb (codepoint f) k) with false; [reflexivity|].
        symmetry. apply eqb_neq. apply eqb_neq in E. congruence.
    + intros k' n. rewrite count_step_get by exact Hf.
      destruct (JS.eqb k' (codepoint f)); [|apply Hpos].
      intros H. injection H as <-. lia.
Qed.

Lemma put_sum (k : jsstring) (o : Obj.t nat) :
  list_sum (map snd (Obj.put k (match Obj.get k o with
                                | Some n => n
                                | None => 0
                                end + 1) o)) =
  list_sum (map snd o) + 1.
Proof.
  induction o as [|[k0 v0] o IH]; cbn [Obj.put Obj.get]; [reflexivity|].
  destruct (JS.eqb k k0); simpl in *; lia.
Qed.

Lemma counts_sum (findings : list Finding) :
  forall counts,
    Forall (fun f => codepoint f <> Obj.proto_key) findings ->
    list_sum (map snd (fold_left Console.count_step findings counts)) =
    list_sum (map snd counts) + length findings.
Proof.
  induction findings as [|f fs IH]; intros counts Hp.
  - cbn [fold_left length]. lia.
  - inversion Hp as [|x l Hf Hfs]; subst. cbn [fold_left length].
    rewrite IH by exact Hfs. unfold Console.count_step, Obj.assign.
    apply eqb_neq in Hf. rewrite Hf, put_sum. lia.
Qed.

Lemma scan_labels_plain (d : Disk) (filePath : jsstring) :
  Forall (fun f => codepoint f <> Obj.proto_key) (findings_in d filePath).
Proof.
  apply Forall_forall. intros f Hin.
  destruct (findings_in_sound _ _ _ Hin) as [content [c [_ [_ [_ Ef]]]]].
  rewrite Ef. cbn [codepoint finding_of].
  change (lit "U+") with [85%N; 43%N]. cbn [app]. discriminate.
Qed.

(** X12.  The counts of lines 116-119 for the findings of a file: a label is
    counted with the number of findings that carry it, a label no finding
    carries is absent, and the counts add up to the number of findings. *)
Theorem counts_by_codepoint (d : Disk) (filePath : jsstring) :
  (forall label,
      Obj.get label (Console.count_by_codepoint (findings_in d filePath)) =
      match length (filter (fun f => JS.eqb (codepoint f) label)
                           (findings_in d filePath)) with
      | 0 => None
      | S n => Some (S n)
      end)
  /\ list_sum (map snd (Obj.entries
                          (Console.count_by_codepoint (findings_in d filePath))))
     = length (findings_in d filePath).
Proof.
  split.
  - intros label. unfold Console.count_by_codepoint.
    rewrite counts_get; [reflexivity|apply scan_labels_plain|].
    intros k n H. discriminate H.
  - rewrite (list_sum_perm _ (entries_perm _)).
    unfold Console.count_by_codepoint.
    now rewrite counts_sum by apply scan_labels_plain.
Qed.

(* ===================================================================== *)
(** ** The lines of the console report *)
(* ===================================================================== *)

Lemma count_step_keys (counts : Obj.t nat) (f : Finding) (k : jsstring) :
  In k (map fst (Console.count_step counts f)) ->
  k = codepoint f \/ In k (map fst counts).
Proof.
  unfold Console.count_step, Obj.assign.
  destruct (JS.eqb (codepoint f) Obj.proto_key); [auto|].
  rewrite put_In. tauto.
Qed.

Lemma counts_keys (findings : list Finding) :
  forall counts k,
    In k (map fst (fold_left Console.count_step findings counts)) ->
    In k (map fst counts) \/ In k (map codepoint findings).
Proof.
  induction findings as [|f fs IH]; intros counts k Hin; [now left|].
  cbn [fold_left] in Hin. apply IH in Hin. cbn [map In].
  destruct Hin as [Hin|Hin]; [|auto].
  apply count_step_keys in Hin. destruct Hin as [->|Hin]; auto.
Qed.

Lemma counts_keys_NoDup (findings : list Finding) :
  forall counts,
    NoDup (map fst counts) ->
    NoDup (map fst (fold_left Console.count_step findings counts)).
Proof.
  induction findings as [|f fs IH]; intros counts Hc; [exact Hc|].
  cbn [fold_left]. apply IH. now apply assign_keys_NoDup.
Qed.

Lemma find_label (findings : list Finding) (k : jsstring) :
  In k (map codepoint findings) ->
  exists example,
    find (fun f => JS.eqb (codepoint f) k) findings = Some example.
Proof.
  induction findings as [|f fs IH]; cbn [map In find]; [intros []|].
  intros [<-|Hin].
  - rewrite eqb_refl. now exists f.
  - destruct (JS.eqb (codepoint f) k); [now exists f|auto].
Qed.

Lemma Forall2_In_left (A B : Type) (P : A -> B -> Prop)
  (l : list A) (l' : list B) (x : A) :
  Forall2 P l l' -> In x l -> exists y, In y l' /\ P x y.
Proof.
  induction 1 as [|a b l l' Hab Hl IH]; cbn [In]; [intros []|].
  intros [<-|Hin]; [exists b; auto|].
  destruct (IH Hin) as [y [Hy Hxy]]. exists y. auto.
Qed.

(** The loop that prints the counts of one file completes when every
    label it is given is the label of a finding; it prints one line for
    each entry, in order. *)
Lemma log_counts_lines (findings : list Finding) (entries : list (jsstring * nat)) :
  forall out,
    (forall p, In p entries -> In (fst p) (map codepoint findings)) ->
    exists lines,
      Console.log_counts findings entries out = Console.Completed (out ++ lines)
      /\ Forall2
           (fun p text =>
              exists example,
                find (fun f => JS.eqb (codepoint f) (fst p)) findings = Some example
                /\ text = Console.count_line (fst p) example (snd p))
           entries lines.
Proof.
  induction entries as [|[label count] rest IH]; intros out Hlabels.
  - exists []. cbn. rewrite app_nil_r. split; constructor.
  - cbn [Console.log_counts].
    destruct (@find_label findings label (Hlabels (label, count) (or_introl eq_refl)))
      as [example Hfind].
    rewrite Hfind.
    destruct (IH (out ++ [Console.count_line label example count])
                (fun p Hp => Hlabels p (or_intror Hp))) as [lines [Hrun Hall]].
    exists (Console.count_line label example count :: lines).
    rewrite Hrun, <- app_assoc. split; [reflexivity|].
    constructor; [|exact Hall]. exists example. auto.
Qed.

Lemma counted_labels (findings : list Finding) (p : jsstring * nat) :
  In p (Obj.entries (Console.count_by_codepoint findings)) ->
  In (fst p) (map codepoint findings).
Proof.
  intros Hin. rewrite entries_In in Hin.
  destruct (@counts_keys findings Obj.empty (fst p)) as [[]|H]; [|exact H].
  now apply in_map.
Qed.

Lemma log_files_completes (entries : list (jsstring * list Finding)) :
  forall out,
    exists lines, Console.log_files entries out = Console.Completed (out ++ lines).
Proof.
  induction entries as [|[file findings] rest IH]; intros out.
  - exists []. cbn. now rewrite app_nil_r.
  - cbn [Console.log_files].
    destruct (@log_counts_lines findings
                (Obj.entries (Console.count_by_codepoint findings))
                (out ++ [Console.file_line file])
                (@counted_labels findings)) as [lines [Hrun _]].
    rewrite Hrun.
    destruct (IH (((out ++ [Console.file_line file]) ++ lines) ++ [[]]))
      as [lines' Hrest].
    rewrite Hrest. eexists. now rewrite <- !app_assoc.
Qed.

(** X13.  The console output of a run that obtained its listing.  When the
    report can be written, the console report is printed to the end
    (reading [example.name] at line 123 never throws): without a finding
    it is the banner and the success line; otherwise the banner, the
    header with the total and the number of keys of the report, and it
    ends with the summary line and the path of the report.  When the
    report cannot be written, the exception of line 104 ends the run
    after the banner: no line of the console report is printed. *)
Theorem console_report (w : World) (files : list jsstring) :
  getGitFiles w = Return files ->
  (writable w jsonPath = true ->
   exists lines,
     Console.stdout w = Some (Console.Completed lines)
     /\ (Spec.total_findings (disk w) files = 0 ->
         lines = [Console.banner; Console.success_line])
     /\ (Spec.total_findings (disk w) files <> 0 ->
         exists body,
           lines =
           Console.banner
           :: Console.header (Spec.total_findings (disk w) files)
                (length (Obj.keys (collect (disk w) files Obj.empty)))
           :: body
           ++ [Console.summary_line (Spec.total_findings (disk w) files);
               Console.report_line]))
  /\ (writable w jsonPath = false ->
      Console.stdout w = Some (Console.Threw [Console.banner])).
Proof.
  intros Hfiles. unfold Console.stdout. rewrite Hfiles.
  destruct (scan_files_collect (disk w) files 0 Obj.empty 0 []) as [i' Hscan].
  rewrite pattern_at_0 in Hscan. rewrite Hscan. cbn [Nat.add].
  unfold writeFileSync.
  split; intros Hw; rewrite Hw; [|reflexivity].
  unfold Console.report.
  destruct (Spec.total_findings (disk w) files) as [|n] eqn:Ht.
  - cbn. eexists. split; [reflexivity|]. split; [reflexivity|].
    intros H. now contradiction H.
  - cbn [Nat.eqb].
    destruct (log_files_completes
                (Obj.entries (collect (disk w) files Obj.empty))
                ([Console.banner]
                 ++ [Console.header (S n)
                       (length (Obj.keys (collect (disk w) files Obj.empty)))]))
      as [body Hrun].
    rewrite Hrun. eexists. split; [reflexivity|]. split; [discriminate|].
    intros _. exists body. reflexivity.
Qed.

Lemma console_report_witness :
  (writable (Sample.world Sample.two_files) jsonPath = true ->
   exists lines,
     Console.stdout (Sample.world Sample.two_files) = Some (Console.Completed lines)
     /\ (Spec.total_findings Sample.tree Sample.two_files = 0 ->
         lines = [Console.banner; Console.success_line])
     /\ (Spec.total_findings Sample.tree Sample.two_files <> 0 ->
         exists body,
           lines =
           Console.banner
           :: Console.header (Spec.total_findings Sample.tree Sample.two_files)
                (length (Obj.keys (collect Sample.tree Sample.two_files Obj.empty)))
           :: body
           ++ [Console.summary_line (Spec.total_findings Sample.tree Sample.two_files);
               Console.report_line]))
  /\ (writable (Sample.world Sample.two_files) jsonPath = false ->
      Console.stdout (Sample.world Sample.two_files)
      = Some (Console.Threw [Console.banner])).
Proof.
  apply (@console_report (Sample.world Sample.two_files) Sample.two_files).
  reflexivity.
Defined.

Lemma label_of_catalogued (c : N) :
  Spec.catalogued c = true -> label_value (Spec.label c) = Some c.
Proof.
  intros Hc. destruct (@finding_of_catalogued [] c 0 Hc) as [<- _].
  apply label_value_finding_of.
Qed.

Lemma label_injective (x y : N) :
  Spec.catalogued x = true -> Spec.catalogued y = true ->
  Spec.label x = Spec.label y -> x = y.
Proof.
  intros Hx Hy E. apply label_of_catalogued in Hx, Hy.
  rewrite E, Hy in Hx. now injection Hx.
Qed.

Lemma labels_from (content s : jsstring) :
  forall i,
    map codepoint (findings_from content i s) =
    map Spec.label (filter Spec.catalogued s).
Proof.
  induction s as [|c r IH]; intros i; [reflexivity|].
  cbn [findings_from filter]. destruct (Spec.catalogued c) eqn:Hc; [|apply IH].
  cbn [map]. rewrite IH.
  now destruct (@finding_of_catalogued content c i Hc) as [-> _].
Qed.

Lemma count_label (content s : jsstring) (c : N) :
  Spec.catalogued c = true ->
  forall i,
    length (filter (fun f => JS.eqb (codepoint f) (Spec.label c))
                   (findings_from content i s)) =
    count_occ N.eq_dec s c.
Proof.
  intros Hc. induction s as [|x r IH]; intros i; [reflexivity|].
  cbn [findings_from count_occ].
  destruct (Spec.catalogued x) eqn:Hx.
  - cbn [filter].
    destruct (@finding_of_catalogued content x i Hx) as [-> _].
    destruct (N.eq_dec x c) as [->|Hne].
    + rewrite eqb_refl. cbn [length]. now rewrite IH.
    + replace (JS.eqb (Spec.label x) (Spec.label c)) with false; [apply IH|].
      symmetry. apply eqb_neq. intros E. apply Hne.
      now apply label_injective.
  - destruct (N.eq_dec x c) as [->|Hne]; [congruence|apply IH].
Qed.

Lemma nodup_map_length (A B : Type)
  (decA : forall x y : A, {x = y} + {x <> y})
  (decB : forall x y : B, {x = y} + {x <> y})
  (g : A -> B) (l : list A) :
  (forall x y, In x l -> In y l -> g x = g y -> x = y) ->
  length (nodup decB (map g l)) = length (nodup decA l).
Proof.
  induction l as [|x l IH]; intros Hinj; [reflexivity|].
  cbn [map nodup].
  assert (IH' : length (nodup decB (map g l)) = length (nodup decA l))
    by (apply IH; intros a b Ha Hb; apply Hinj; now right).
  destruct (in_dec decB (g x) (map g l)) as [Hin|Hnin];
    destruct (in_dec decA x l) as [Hin'|Hnin']; cbn [length]; auto.
  - exfalso. apply in_map_iff in Hin as [y [E Hy]].
    assert (y = x) by (apply Hinj; [now right|now left|exact E]).
    subst. contradiction.
  - exfalso. apply Hnin. now apply in_map.
Qed.

(** X14.  The count lines the console shows for one file: one line for each
    distinct catalogued code unit of the text, and for every such code
    unit the line [   U+XXXX (name): nx] with its label, its catalogue
    name and the number of times it occurs in the text. *)
Theorem console_count_lines
  (d : Disk) (filePath content : jsstring) (out : list jsstring) :
  readFileSync d filePath = Some content ->
  exists lines,
    Console.log_counts (findings_in d filePath)
      (Obj.entries (Console.count_by_codepoint (findings_in d filePath))) out
    = Console.Completed (out ++ lines)
    /\ length lines = length (nodup N.eq_dec (filter Spec.catalogued content))
    /\ forall c nm,
         Spec.catalogued c = true -> In c content -> Spec.name_of c = Some nm ->
         In (lit "   " ++ Spec.label c ++ lit " (" ++ nm ++ lit "): "
             ++ Console.number (count_occ N.eq_dec content c) ++ lit "x")
            lines.
Proof.
  intros Hr.
  destruct (@log_counts_lines (findings_in d filePath)
              (Obj.entries (Console.count_by_codepoint (findings_in d filePath)))
              out (@counted_labels (findings_in d filePath)))
    as [lines [Hrun Hall]].
  exists lines. split; [exact Hrun|].
  pose proof (findings_in_readable _ _ Hr) as Hfrom.
  assert (Hlabels : map codepoint (findings_in d filePath) =
                    map Spec.label (filter Spec.catalogued content))
    by (rewrite Hfrom; apply labels_from).
  assert (Hget : forall label,
             Obj.get label (Console.count_by_codepoint (findings_in d filePath)) =
             match length (filter (fun f => JS.eqb (codepoint f) label)
                                  (findings_in d filePath)) with
             | 0 => None
             | S n => Some (S n)
             end).
  { intros label. unfold Console.count_by_codepoint.
    rewrite counts_get; [reflexivity|apply scan_labels_plain|].
    intros k n H. discriminate H. }
  split.
  - rewrite <- (Forall2_length Hall).
    rewrite (Permutation_length (entries_perm _)).
    rewrite <- (length_map fst).
    rewrite <- (@nodup_map_length _ _ N.eq_dec (list_eq_dec N.eq_dec) Spec.label).
    + apply Permutation_length. apply NoDup_Permutation.
      * apply counts_keys_NoDup. constructor.
      * apply NoDup_nodup.
      * intros k. rewrite nodup_In. split.
        -- intros Hk. destruct (@counts_keys _ Obj.empty k Hk) as [[]|H].
           rewrite Hlabels in H. exact H.
        -- intros Hk.
           assert (Hk' : In k (map codepoint (findings_in d filePath)))
             by (rewrite Hlabels; exact Hk).
           clear Hk. apply in_map_iff in Hk' as [f [<- Hf]].
           specialize (Hget (codepoint f)).
           destruct (filter (fun f0 => JS.eqb (codepoint f0) (codepoint f))
                            (findings_in d filePath)) as [|g gs] eqn:E.
           ++ exfalso.
              assert (Hin : In f (filter (fun f0 => JS.eqb (codepoint f0) (codepoint f))
                                         (findings_in d filePath)))
                by (apply filter_In; split; [exact Hf|apply eqb_refl]).
              rewrite E in Hin. contradiction.
           ++ cbn [length] in Hget. apply get_In in Hget.
              now apply (in_map fst) in Hget.
    + intros x y Hx Hy. apply filter_In in Hx as [_ Hx], Hy as [_ Hy].
      now apply label_injective.
  - intros c nm Hc Hin Hnm.
    assert (Hcount : length (filter (fun f => JS.eqb (codepoint f) (Spec.label c))
                                    (findings_in d filePath))
                     = count_occ N.eq_dec content c)
      by (rewrite Hfrom; now apply count_label).
    specialize (Hget (Spec.label c)). rewrite Hcount in Hget.
    destruct (count_occ N.eq_dec content c) as [|n] eqn:Hn.
    + exfalso. apply (count_occ_not_In N.eq_dec) in Hn. contradiction.
    + apply get_In in Hget. rewrite <- entries_In in Hget.
      destruct (Forall2_In_left _ Hall Hget) as [text [Htext [example [Hfind ->]]]].
      cbn [fst snd] in *. apply find_some in Hfind as [Hex Hlabel].
      apply eqb_eq in Hlabel.
      destruct (findings_in_sound _ _ _ Hex) as [content' [c' [_ [_ [Hc' Eex]]]]].
      destruct (@finding_of_catalogued content' c' (position example) Hc')
        as [Hl [Hname _]].
      rewrite <- Eex in Hl, Hname.
      assert (c' = c) by (apply label_injective; congruence). subst c'.
      unfold Console.count_line, Console.name_text in Htext.
      rewrite Hname, Hnm in Htext. exact Htext.
Qed.

Lemma console_count_lines_witness :
  exists lines,
    Console.log_counts (findings_in Sample.tree (lit "lines.txt"))
      (Obj.entries (Console.count_by_codepoint
                      (findings_in Sample.tree (lit "lines.txt")))) []
    = Console.Completed ([] ++ lines)
    /\ length lines
       = length (nodup N.eq_dec (filter Spec.catalogued Sample.zwsp_text))
    /\ forall c nm,
         Spec.catalogued c = true -> In c Sample.zwsp_text ->
         Spec.name_of c = Some nm ->
         In (lit "   " ++ Spec.label c ++ lit " (" ++ nm ++ lit "): "
             ++ Console.number (count_occ N.eq_dec Sample.zwsp_text c)
             ++ lit "x")
            lines.
Proof.
  apply (@console_count_lines Sample.tree (lit "lines.txt") Sample.zwsp_text []).
  reflexivity.
Defined.

Lemma report_entries_witness :
  In (lit "desc.txt", findings_in Sample.tree (lit "desc.txt"))
     (Obj.entries (collect Sample.tree Sample.two_files Obj.empty))
  /\ (findings_in Sample.tree (lit "desc.txt") = findings_in Sample.tree (lit "desc.txt")
      /\ findings_in Sample.tree (lit "desc.txt") <> []
      /\ In (lit "desc.txt") Sample.two_files).
Proof.
  assert (Hin : In (lit "desc.txt", findings_in Sample.tree (lit "desc.txt"))
                   (Obj.entries (collect Sample.tree Sample.two_files Obj.empty)))
    by (left; reflexivity).
  split; [exact Hin|].
  exact (proj2 (report_entries Sample.tree Sample.two_files) _ _ Hin).
Defined.

(* ===================================================================== *)
(** ** What the read makes of the bytes *)
(* ===================================================================== *)

Lemma decode_ascii_head (b : Byte.byte) (r : list Byte.byte) :
  (Byte.to_N b <= 0x7F)%N ->
  Utf8.decode (b :: r) = Byte.to_N b :: Utf8.decode r.
Proof.
  intros Hb. cbn [Utf8.decode]. cbv zeta.
  now rewrite (proj2 (N.leb_le _ _) Hb).
Qed.

Lemma read_ascii (bytes : list Byte.byte) :
  Forall (fun b => (Byte.to_N b <= 0x7F)%N) bytes ->
  flat_map utf16 (Utf8.decode bytes) = map Byte.to_N bytes.
Proof.
  induction 1 as [|b r Hb Hr IH]; [reflexivity|].
  rewrite decode_ascii_head by exact Hb. cbn [flat_map map]. rewrite IH.
  unfold utf16. replace (Byte.to_N b <? 0x10000)%N with true; [reflexivity|].
  symmetry. apply N.ltb_lt. lia.
Qed.

Lemma ascii_not_catalogued (c : N) :
  (c <= 0x7F)%N -> Spec.catalogued c = false.
Proof.
  intros Hc. destruct (Spec.catalogued c) eqn:E; [|reflexivity].
  apply catalogued_cases in E. simpl in E.
  repeat (destruct E as [E|E]; [subst c; now apply N.leb_le in Hc|]).
  contradiction.
Qed.

(** X15.  A file of ASCII bytes only has no finding. *)
Theorem ascii_file_is_clean (d : Disk) (filePath : jsstring) (bytes : list Byte.byte) :
  d filePath = Some bytes ->
  Forall (fun b => (Byte.to_N b <= 0x7F)%N) bytes ->
  findings_in d filePath = [].
Proof.
  intros Hd Hascii.
  assert (Hr : readFileSync d filePath = Some (map Byte.to_N bytes))
    by (unfold readFileSync; rewrite Hd; now rewrite read_ascii).
  rewrite (findings_in_readable _ _ Hr). apply findings_from_nil_iff.
  apply Forall_forall. intros c Hc. apply in_map_iff in Hc as [b [<- Hb]].
  apply ascii_not_catalogued. rewrite Forall_forall in Hascii. now apply Hascii.
Qed.

Lemma ascii_file_is_clean_witness :
  findings_in Sample.tree (lit "clean.txt") = [].
Proof.
  apply (@ascii_file_is_clean Sample.tree (lit "clean.txt") Sample.clean_file).
  - reflexivity.
  - repeat (constructor; [now apply N.leb_le|]). constructor.
Defined.

(** X16.  A file that starts with the UTF-8 byte-order mark is read with the
    mark in place, and the mark is its first finding: U+FEFF at offset 0
    of line 1. *)
Theorem bom_is_reported (d : Disk) (filePath : jsstring) (rest : list Byte.byte) :
  d filePath = Some (Byte.xef :: Byte.xbb :: Byte.xbf :: rest) ->
  exists more,
    findings_in d filePath =
    mkFinding [0xFEFF%N] (lit "U+FEFF")
      (Some (lit "BOM/ZWNBSP (Zero Width No-Break Space)")) 0 1
    :: more.
Proof.
  intros Hd.
  assert (Hr : readFileSync d filePath =
               Some (0xFEFF%N :: flat_map utf16 (Utf8.decode rest)))
    by (unfold readFileSync; rewrite Hd; reflexivity).
  rewrite (findings_in_readable _ _ Hr).
  eexists. cbn [findings_from].
  change (Spec.catalogued 0xFEFF%N) with true. cbv iota.
  f_equal.
Qed.

Lemma bom_is_reported_witness :
  exists more,
    findings_in Sample.tree (lit "bom.txt") =
    mkFinding [0xFEFF%N] (lit "U+FEFF")
      (Some (lit "BOM/ZWNBSP (Zero Width No-Break Space)")) 0 1
    :: more.
Proof.
  apply (@bom_is_reported Sample.tree (lit "bom.txt")
           [Byte.x61; Byte.x62; Byte.x63; Byte.x0a]).
  reflexivity.
Defined.
